(** * chaos-exporter: the metric reconciliation loop of cmd/exporter/main.go

    A shallow embedding of [contains], [exporter] and [main], together with
    the part of the Prometheus client registry those functions drive
    (Register / Unregister / gauge children), and the properties of the
    reconciliation engine proved over it.

    Modelling decisions, all visible in the definitions below:
    - a Go [string] is a sequence of bytes ([string] of Rocq), a
      [float64] is a binary64 float ([PrimFloat.float]); gauge values are
      only stored, never computed with;
    - a Go [map[string]float64] is a [gmap string float]; a [range] over
      it visits its entries once each in an order the runtime picks anew
      for every loop, so the order is an input of the loop ([range_order]);
    - the process state ([world]) holds the package-level variable
      [registeredResultMetrics], the children of the three package-level
      gauge vectors and the default Prometheus registry; the registry
      holds references, so a value set through a gauge after it was
      registered is seen through the registry;
    - the poll loop never returns; [exporter] is run over the finite
      sequence of answers the metrics source has given so far;
    - calls into the registry are recorded in a trace, next to the state. *)

From Stdlib Require Import PrimFloat Ascii.
From stdpp Require Import gmap strings list fin_maps.

Open Scope string_scope.

Abbreviation float64 := float.

(** ** Package unicode/utf8 *)

Module utf8.

(** The table [first] together with [acceptRanges]: for a leading byte,
    the ranges its continuation bytes must lie in (none for an ASCII
    byte); [None] for a byte that cannot start an encoding. *)
Definition first (b : nat) : option (list (nat * nat)) :=
  if (b <=? 127)%nat then Some []
  else if (b <? 194)%nat then None
  else if (b <=? 223)%nat then Some [(128, 191)]
  else if (b =? 224)%nat then Some [(160, 191); (128, 191)]
  else if (b <=? 236)%nat then Some [(128, 191); (128, 191)]
  else if (b =? 237)%nat then Some [(128, 159); (128, 191)]
  else if (b <=? 239)%nat then Some [(128, 191); (128, 191)]
  else if (b =? 240)%nat then Some [(144, 191); (128, 191); (128, 191)]
  else if (b <=? 243)%nat then Some [(128, 191); (128, 191); (128, 191)]
  else if (b =? 244)%nat then Some [(128, 143); (128, 191); (128, 191)]
  else None.

Definition in_range (r : nat * nat) (c : ascii) : bool :=
  (r.1 <=? nat_of_ascii c)%nat && (nat_of_ascii c <=? r.2)%nat.

(** [s] starts with continuation bytes in the ranges [need]. *)
Fixpoint continues (need : list (nat * nat)) (s : string) : bool :=
  match need with
  | [] => true
  | r :: rest =>
      match s with
      | EmptyString => false
      | String c s' => in_range r c && continues rest s'
      end
  end.

(** The width [DecodeRuneInString] returns: the length of a well-formed
    encoding at the start of [s], 1 for a byte that does not start one,
    0 for the empty string. *)
Definition rune_width (s : string) : nat :=
  match s with
  | EmptyString => 0
  | String c s' =>
      match first (nat_of_ascii c) with
      | Some need => if continues need s' then S (length need) else 1
      | None => 1
      end
  end.

(** [need] holds the ranges of the continuation bytes still expected. *)
Fixpoint valid_from (need : list (nat * nat)) (s : string) : bool :=
  match s with
  | EmptyString => match need with [] => true | _ => false end
  | String c s' =>
      match need with
      | r :: rest => in_range r c && valid_from rest s'
      | [] =>
          match first (nat_of_ascii c) with
          | Some need' => valid_from need' s'
          | None => false
          end
      end
  end.

(** [utf8.ValidString]. *)
Definition ValidString (s : string) : bool := valid_from [] s.

End utf8.

(** ** Package strings *)

Module Strings.

(** Remaining number of replacements: [None] is "no limit" ([n < 0]). *)
Definition limit_of (n : Z) : option nat :=
  if (n <? 0)%Z then None else Some (Z.to_nat n).

Definition may_replace (left : option nat) : bool :=
  match left with
  | Some O => false
  | _ => true
  end.

Definition one_less (left : option nat) : option nat :=
  match left with
  | Some k => Some (Nat.pred k)
  | None => None
  end.

(** Non-overlapping replacement of a non-empty [old], left to right.
    [skip] counts the bytes of a matched [old] still to be dropped. *)
Fixpoint replace_from (old new s : string) (skip : nat)
         (left : option nat) : string :=
  match s with
  | EmptyString => EmptyString
  | String c s' =>
      match skip with
      | S k => replace_from old new s' k left
      | O =>
          if may_replace left && String.prefix old s
          then new ++ replace_from old new s' (Nat.pred (String.length old))
                                   (one_less left)
          else String c (replace_from old new s' O left)
      end
  end.

(** An empty [old] matches before every rune and at the end. [skip]
    counts the bytes of the current rune still to be copied. *)
Fixpoint insert_between (new s : string) (skip : nat) (left : option nat)
  : string :=
  match s with
  | EmptyString => if may_replace left then new else EmptyString
  | String c s' =>
      match skip with
      | S k => String c (insert_between new s' k left)
      | O =>
          if may_replace left
          then new ++ String c (insert_between new s'
                                  (Nat.pred (utf8.rune_width s)) (one_less left))
          else s
      end
  end.

(** [strings.Replace(s, old, new, n)]. *)
Definition Replace (s old new : string) (n : Z) : string :=
  if String.eqb old new || (n =? 0)%Z then s
  else if String.eqb old "" then insert_between new s O (limit_of n)
  else replace_from old new s O (limit_of n).

End Strings.

(** ** The Prometheus client, as far as the exporter uses it *)

Module prometheus.

(** [BuildFQName]: the parts joined by underscores; an empty [name]
    gives the empty string whatever the other parts are. *)
Definition BuildFQName (namespace subsystem name : string) : string :=
  if String.eqb name "" then ""
  else if negb (String.eqb namespace "") && negb (String.eqb subsystem "")
  then namespace ++ "_" ++ subsystem ++ "_" ++ name
  else if negb (String.eqb namespace "") then namespace ++ "_" ++ name
  else if negb (String.eqb subsystem "") then subsystem ++ "_" ++ name
  else name.

Definition is_letter (c : ascii) : bool :=
  let n := nat_of_ascii c in
  ((65 <=? n)%nat && (n <=? 90)%nat) || ((97 <=? n)%nat && (n <=? 122)%nat).

Definition is_digit (c : ascii) : bool :=
  let n := nat_of_ascii c in (48 <=? n)%nat && (n <=? 57)%nat.

(** First byte of a metric name: a letter, [_] or [:]. *)
Definition name_start (c : ascii) : bool :=
  is_letter c || Ascii.eqb c "_"%char || Ascii.eqb c ":"%char.

Definition name_char (c : ascii) : bool := name_start c || is_digit c.

Fixpoint all_name_chars (s : string) : bool :=
  match s with
  | EmptyString => true
  | String c s' => name_char c && all_name_chars s'
  end.

(** [model.IsValidMetricName]: the name matches
    [[a-zA-Z_:][a-zA-Z0-9_:]*]. *)
Definition IsValidMetricName (n : string) : bool :=
  match n with
  | EmptyString => false
  | String c s' => name_start c && all_name_chars s'
  end.

Record GaugeOpts := {
  Namespace : string;
  Subsystem : string;
  Name : string;
  Help : string
}.

(** A gauge vector: its descriptor (fully qualified name, help, label
    names) and its children, one value per tuple of label values. *)
Record GaugeVec := {
  fqName : string;
  help : string;
  variableLabels : list string;
  metrics : gmap (list string) float64
}.

Definition NewGaugeVec (opts : GaugeOpts) (labelNames : list string)
  : GaugeVec :=
  {| fqName := BuildFQName (Namespace opts) (Subsystem opts) (Name opts);
     help := Help opts;
     variableLabels := labelNames;
     metrics := ∅ |}.

(** [g.WithLabelValues(lvs...).Set(v)] on the gauge vector itself, for
    label values that pass [validateLabelValues] (below). The exporter
    always passes as many values as the vector has labels. *)
Definition SetChild (lvs : list string) (v : float64) (g : GaugeVec)
  : GaugeVec :=
  {| fqName := fqName g;
     help := help g;
     variableLabels := variableLabels g;
     metrics := <[lvs := v]> (metrics g) |}.

Inductive LabelError :=
| InconsistentCardinality
| InvalidLabelValue (val : string).

Fixpoint firstInvalidValue (vals : list string) : option string :=
  match vals with
  | [] => None
  | val :: rest =>
      if utf8.ValidString val then firstInvalidValue rest else Some val
  end.

(** [validateLabelValues], the check [WithLabelValues] makes before it
    hands out a child and panics on: as many values as label names, each
    of them valid UTF-8. *)
Definition validateLabelValues (vals : list string)
           (expectedNumberOfValues : nat) : option LabelError :=
  if negb (length vals =? expectedNumberOfValues)%nat
  then Some InconsistentCardinality
  else match firstInvalidValue vals with
       | Some val => Some (InvalidLabelValue val)
       | None => None
       end.

Inductive RegisterError :=
| InvalidDesc (id : string)
| AlreadyRegistered (id : string).

Section Registry.
(** What the registry stores for a collector: a reference to it. *)
Context {C : Type} (descName : C → string).

(** [Registry.Register]. [NewDesc] marks a descriptor whose fully
    qualified name is not a metric name as invalid, and Register
    returns an error for a collector with such a descriptor; it
    returns an AlreadyRegisteredError for a collector whose
    descriptor identity is taken. None of the exporter's collectors
    has constant labels, so the identity of a descriptor is its
    fully qualified name. *)
Definition Register (c : C) (r : gmap string C)
  : RegisterError + gmap string C :=
  let id := descName c in
  if negb (IsValidMetricName id) then inl (InvalidDesc id)
  else match r !! id with
       | Some _ => inl (AlreadyRegistered id)
       | None => inr (<[id := c]> r)
       end.

(** [Registry.Unregister]: drops the collector registered under the
    descriptor identity of [c], if there is one. *)
Definition Unregister (c : C) (r : gmap string C) : gmap string C :=
  delete (descName c) r.
End Registry.

End prometheus.

Import prometheus.

(** ** Process state *)

(** The three package-level gauge vectors of main.go. *)
Inductive fixedGauge := ExperimentsTotal | PassedExperiments | FailedExperiments.

Definition labelNames : list string :=
  ["app_uid"; "engine_name"; "kubernetes_version"; "openebs_version"].

Definition fixedOpts (f : fixedGauge) : GaugeOpts :=
  match f with
  | ExperimentsTotal =>
      {| Namespace := "c"; Subsystem := "engine"; Name := "experiment_count";
         Help := "Total number of experiments executed by the chaos engine" |}
  | PassedExperiments =>
      {| Namespace := "c"; Subsystem := "engine"; Name := "passed_experiments";
         Help := "Total number of passed experiments" |}
  | FailedExperiments =>
      {| Namespace := "c"; Subsystem := "engine"; Name := "failed_experiments";
         Help := "Total number of failed experiments" |}
  end.

Definition fixedName (f : fixedGauge) : string :=
  fqName (NewGaugeVec (fixedOpts f) labelNames).

(** A registered collector: one of the package-level vectors, or a
    vector built inside the loop ([tmpExp]), which only the registry
    still refers to once its iteration is over. *)
Inductive collector :=
| Global (f : fixedGauge)
| Owned (g : GaugeVec).

Definition descName (c : collector) : string :=
  match c with
  | Global f => fixedName f
  | Owned g => fqName g
  end.

Record world := {
  registeredResultMetrics : list string;
  experimentsTotal : gmap (list string) float64;
  passedExperiments : gmap (list string) float64;
  failedExperiments : gmap (list string) float64;
  DefaultRegisterer : gmap string collector
}.

(** Program start: no name recorded, no child set, nothing registered. *)
Definition world0 : world :=
  {| registeredResultMetrics := [];
     experimentsTotal := ∅;
     passedExperiments := ∅;
     failedExperiments := ∅;
     DefaultRegisterer := ∅ |}.

(** What a scrape reads: the children of every registered collector. *)
Definition children (w : world) (c : collector) : gmap (list string) float64 :=
  match c with
  | Global ExperimentsTotal => experimentsTotal w
  | Global PassedExperiments => passedExperiments w
  | Global FailedExperiments => failedExperiments w
  | Owned g => metrics g
  end.

Definition Gather (w : world) : gmap string (gmap (list string) float64) :=
  children w <$> DefaultRegisterer w.

Definition exposed (w : world) (id : string) (lvs : list string)
  : option float64 :=
  match Gather w !! id with
  | Some ch => ch !! lvs
  | None => None
  end.

(** ** Effects: state, abnormal termination, and the trace of registry calls *)

Inductive call :=
| CallRegister (id : string)
| CallUnregister (id : string)
| CallSet (id : string) (lvs : list string) (v : float64).

Inductive failure :=
| Panic (msg : string)
| RegisterPanic (e : RegisterError)
| LogFatal (msg : string).

Inductive outcome (A : Type) :=
| Done (a : A) (w : world)
| Halt (f : failure) (w : world).
Arguments Done {A} a w.
Arguments Halt {A} f w.

Definition Run (A : Type) : Type := world → list call * outcome A.

Definition ret {A} (a : A) : Run A := λ w, ([], Done a w).

Definition bind {A B} (k : A → Run B) (m : Run A) : Run B :=
  λ w, match m w with
       | (t1, Done a w1) =>
           match k a w1 with
           | (t2, o) => ((t1 ++ t2)%list, o)
           end
       | (t1, Halt f w1) => (t1, Halt f w1)
       end.

#[export] Instance Run_ret : MRet Run := @ret.
#[export] Instance Run_bind : MBind Run := @bind.

Definition halt {A} (f : failure) : Run A := λ w, ([], Halt f w).

Definition world_of {A} (r : list call * outcome A) : world :=
  match r.2 with
  | Done _ w => w
  | Halt _ w => w
  end.

Definition calls_of {A} (r : list call * outcome A) : list call := r.1.

Definition completed {A} (r : list call * outcome A) : bool :=
  match r.2 with
  | Done _ _ => true
  | Halt _ _ => false
  end.

(** [prometheus.Unregister(c)] on the default registry. *)
Definition prometheus_Unregister (c : collector) : Run unit :=
  λ w, ([CallUnregister (descName c)],
        Done tt {| registeredResultMetrics := registeredResultMetrics w;
                   experimentsTotal := experimentsTotal w;
                   passedExperiments := passedExperiments w;
                   failedExperiments := failedExperiments w;
                   DefaultRegisterer :=
                     Unregister descName c (DefaultRegisterer w) |}).

(** [prometheus.MustRegister(c)]: panics when Register returns an error. *)
Definition prometheus_MustRegister (c : collector) : Run unit :=
  λ w, ([CallRegister (descName c)],
        match Register descName c (DefaultRegisterer w) with
        | inl e => Halt (RegisterPanic e) w
        | inr r =>
            Done tt {| registeredResultMetrics := registeredResultMetrics w;
                       experimentsTotal := experimentsTotal w;
                       passedExperiments := passedExperiments w;
                       failedExperiments := failedExperiments w;
                       DefaultRegisterer := r |}
        end).

Definition setOwned (lvs : list string) (v : float64) (c : collector)
  : collector :=
  match c with
  | Owned g => Owned (SetChild lvs v g)
  | Global f => Global f
  end.

(** [tmpExp.WithLabelValues(lvs...).Set(v)]: [tmpExp] has just been
    registered, the registry holds the very object that is written.
    This is the call for label values that pass [validateLabelValues];
    for a label value that is not valid UTF-8 the library panics here
    instead. Statements that promise a completed step carry that
    condition ([labels_accepted]) or assume a completed step. *)
Definition tmpExp_Set (tmpExp : GaugeVec) (lvs : list string) (v : float64)
  : Run unit :=
  λ w, ([CallSet (fqName tmpExp) lvs v],
        Done tt {| registeredResultMetrics := registeredResultMetrics w;
                   experimentsTotal := experimentsTotal w;
                   passedExperiments := passedExperiments w;
                   failedExperiments := failedExperiments w;
                   DefaultRegisterer :=
                     alter (setOwned lvs v) (fqName tmpExp)
                           (DefaultRegisterer w) |}).

(** [f.WithLabelValues(lvs...).Set(v)] for a package-level vector, for
    label values that pass [validateLabelValues], as above. *)
Definition fixed_Set (f : fixedGauge) (lvs : list string) (v : float64)
  : Run unit :=
  λ w, ([CallSet (fixedName f) lvs v],
        Done tt
          match f with
          | ExperimentsTotal =>
              {| registeredResultMetrics := registeredResultMetrics w;
                 experimentsTotal := <[lvs := v]> (experimentsTotal w);
                 passedExperiments := passedExperiments w;
                 failedExperiments := failedExperiments w;
                 DefaultRegisterer := DefaultRegisterer w |}
          | PassedExperiments =>
              {| registeredResultMetrics := registeredResultMetrics w;
                 experimentsTotal := experimentsTotal w;
                 passedExperiments := <[lvs := v]> (passedExperiments w);
                 failedExperiments := failedExperiments w;
                 DefaultRegisterer := DefaultRegisterer w |}
          | FailedExperiments =>
              {| registeredResultMetrics := registeredResultMetrics w;
                 experimentsTotal := experimentsTotal w;
                 passedExperiments := passedExperiments w;
                 failedExperiments := <[lvs := v]> (failedExperiments w);
                 DefaultRegisterer := DefaultRegisterer w |}
          end).

(** [registeredResultMetrics = append(registeredResultMetrics, e)]. *)
Definition append_registered (e : string) : Run unit :=
  λ w, ([],
        Done tt {| registeredResultMetrics :=
                     (registeredResultMetrics w ++ [e])%list;
                   experimentsTotal := experimentsTotal w;
                   passedExperiments := passedExperiments w;
                   failedExperiments := failedExperiments w;
                   DefaultRegisterer := DefaultRegisterer w |}).

Definition get_registered : Run (list string) :=
  λ w, ([], Done (registeredResultMetrics w) w).

(** ** main.go *)

(** [contains] checks if a string is already part of a list of strings. *)
Fixpoint contains (l : list string) (e : string) : bool :=
  match l with
  | [] => false
  | i :: l' => if String.eqb i e then true else contains l' e
  end.

(** What one call of [chaosmetrics.GetLitmusChaosMetrics] returned. *)
Record chaosMetrics := {
  expTotal : float64;
  passTotal : float64;
  failTotal : float64;
  expMap : gmap string float64
}.

(** An order in which [range] may visit the entries of a map. *)
Definition range_order (m : gmap string float64) (l : list (string * float64))
  : Prop :=
  l ≡ₚ map_to_list m.

(** One answer of the metrics source, with the order the runtime picked
    for the [range] over the returned map. *)
Inductive tick :=
| FetchErr (err : string)
| FetchOk (r : chaosMetrics) (order : list (string * float64)).

(** The arguments of [exporter] that the loop body reads. ([cfg] and
    [appNS] only go to the metrics source.) *)
Record exporterArgs := {
  chaosEngine : string;
  appUUID : string;
  kubernetesVersion : string;
  openebsVersion : string
}.

Definition labelValues (a : exporterArgs) : list string :=
  [appUUID a; chaosEngine a; kubernetesVersion a; openebsVersion a].

Definition sanitize (index : string) : string :=
  Strings.Replace index "-" "_" (-1).

Definition expOpts (sanitizedExpName : string) : GaugeOpts :=
  {| Namespace := "c"; Subsystem := "exp"; Name := sanitizedExpName;
     Help := "" |}.

(** The body of [for index, verdict := range expMap]. *)
Definition exporter_entry (a : exporterArgs) (r : chaosMetrics)
           (index : string) (verdict : float64) : Run unit :=
  let sanitizedExpName := sanitize index in
  let tmpExp := NewGaugeVec (expOpts sanitizedExpName) labelNames in
  registered ← get_registered;
  (if contains registered sanitizedExpName then
     prometheus_Unregister (Owned tmpExp);;
     prometheus_MustRegister (Owned tmpExp);;
     tmpExp_Set tmpExp (labelValues a) verdict
   else
     prometheus_MustRegister (Owned tmpExp);;
     tmpExp_Set tmpExp (labelValues a) verdict;;
     append_registered sanitizedExpName);;
  fixed_Set ExperimentsTotal (labelValues a) (expTotal r);;
  fixed_Set PassedExperiments (labelValues a) (passTotal r);;
  fixed_Set FailedExperiments (labelValues a) (failTotal r).

(** The [range] loop of one poll: the reconciliation step. *)
Fixpoint reconcile (a : exporterArgs) (r : chaosMetrics)
         (order : list (string * float64)) : Run unit :=
  match order with
  | [] => mret tt
  | (index, verdict) :: rest =>
      exporter_entry a r index verdict;; reconcile a r rest
  end.

(** One iteration of the [for] loop of [exporter]: fetch, fatal log on
    an error, else the [range] loop. (The sleep that ends an iteration
    does not touch the state.) *)
Definition poll (a : exporterArgs) (t : tick) : Run unit :=
  match t with
  | FetchErr err => halt (LogFatal ("Unable to get metrics: " ++ err))
  | FetchOk r order => reconcile a r order
  end.

(** [exporter], over the answers the metrics source has given so far. *)
Fixpoint exporter (a : exporterArgs) (ticks : list tick) : Run unit :=
  match ticks with
  | [] => mret tt
  | t :: rest => poll a t;; exporter a rest
  end.

(** What [main] reads from its surroundings, for a process whose
    command line was accepted by [flag.Parse] (on a bad command line the
    process exits there, before anything below). [loadConfig] is the
    error of [rest.InClusterConfig] or [clientcmd.BuildConfigFromFlags],
    if any; the two version strings are what the [version] helpers
    returned (their errors are only logged). *)
Record startup := {
  environ : gmap string string;
  loadConfig : option string;
  getKubernetesVersion : string;
  getOpenebsVersion : string
}.

Definition Getenv (i : startup) (key : string) : string :=
  default "" (environ i !! key).

(** [os.LookupEnv]: the value of a variable, if it is set. *)
Definition LookupEnv (i : startup) (key : string) : option string :=
  environ i !! key.

(** [getNamespaceEnv] checks whether an ENV variable has been set, else
    sets a default value. *)
Definition getNamespaceEnv (i : startup) (key fallback : string) : string :=
  match LookupEnv i key with
  | Some value => value
  | None => fallback
  end.

Definition getOpenebsEnv (i : startup) (key fallback : string) : string :=
  match LookupEnv i key with
  | Some value => value
  | None => fallback
  end.

(** The two namespaces [main] resolves: the first goes to the metrics
    source with every poll, the second to the version helper. *)
Definition appNamespace (i : startup) : string :=
  getNamespaceEnv i "APP_NAMESPACE" "default".

Definition openebsNamespace (i : startup) : string :=
  getOpenebsEnv i "OPENEBS_NAMESPACE" "openebs".

(** [main], after [flag.Parse] has accepted the command line, up to the
    point where the poll loop is started and the endpoint is served; its
    result is the argument list of [exporter]. *)
Definition main (i : startup) : Run exporterArgs :=
  let applicationUUID := Getenv i "APP_UUID" in
  let chaosEngine := Getenv i "CHAOSENGINE" in
  match loadConfig i with
  | Some err => halt (Panic err)
  | None =>
      if String.eqb chaosEngine "" || String.eqb applicationUUID "" then
        halt (LogFatal "ERROR: please specify correct APP_UUID & CHAOSENGINE ENVs")
      else
        prometheus_MustRegister (Global ExperimentsTotal);;
        prometheus_MustRegister (Global PassedExperiments);;
        prometheus_MustRegister (Global FailedExperiments);;
        mret {| chaosEngine := chaosEngine;
                appUUID := applicationUUID;
                kubernetesVersion := getKubernetesVersion i;
                openebsVersion := getOpenebsVersion i |}
  end.

(** [main], then the poll loop it starts. The endpoint that [main]
    serves meanwhile only reads the registry; the fatal log with which
    [main] ends when the server stops is outside this run. *)
Definition process (i : startup) (ticks : list tick) : Run unit :=
  a ← main i; exporter a ticks.

(** * Derived notions used in the statements *)

(** ** Sanitization, byte by byte *)

Definition dash_to_underscore (c : ascii) : ascii :=
  if Ascii.eqb c "-" then "_"%char else c.

Fixpoint map_bytes (f : ascii → ascii) (s : string) : string :=
  match s with
  | EmptyString => EmptyString
  | String c s' => String (f c) (map_bytes f s')
  end.

Definition bytes (s : string) : list ascii := String.list_ascii_of_string s.

(** ** Descriptor names of the experiment series *)

Definition expName (n : string) : string := BuildFQName "c" "exp" n.

Arguments sanitize : simpl never.
Arguments expName : simpl never.

(** ** The effect of one pass through the loop body *)

Definition expGauge (a : exporterArgs) (n : string) (v : float64) : GaugeVec :=
  SetChild (labelValues a) v (NewGaugeVec (expOpts n) labelNames).

Definition with_registry (w : world) (r : gmap string collector) : world :=
  {| registeredResultMetrics := registeredResultMetrics w;
     experimentsTotal := experimentsTotal w;
     passedExperiments := passedExperiments w;
     failedExperiments := failedExperiments w;
     DefaultRegisterer := r |}.

(** The state a successful pass through the loop body leaves. *)
Definition entry_effect (a : exporterArgs) (r : chaosMetrics)
           (index : string) (verdict : float64) (w : world) : world :=
  let n := sanitize index in
  {| registeredResultMetrics :=
       if contains (registeredResultMetrics w) n
       then registeredResultMetrics w
       else (registeredResultMetrics w ++ [n])%list;
     experimentsTotal := <[labelValues a := expTotal r]> (experimentsTotal w);
     passedExperiments := <[labelValues a := passTotal r]> (passedExperiments w);
     failedExperiments := <[labelValues a := failTotal r]> (failedExperiments w);
     DefaultRegisterer :=
       <[expName n := Owned (expGauge a n verdict)]> (DefaultRegisterer w) |}.

Definition fixed_calls (a : exporterArgs) (r : chaosMetrics) : list call :=
  [CallSet (fixedName ExperimentsTotal) (labelValues a) (expTotal r);
   CallSet (fixedName PassedExperiments) (labelValues a) (passTotal r);
   CallSet (fixedName FailedExperiments) (labelValues a) (failTotal r)].

(** The registry calls of a successful pass through the loop body. *)
Definition entry_calls (a : exporterArgs) (r : chaosMetrics)
           (index : string) (verdict : float64) (known : bool) : list call :=
  ((if known then [CallUnregister (expName (sanitize index))] else []) ++
   [CallRegister (expName (sanitize index));
    CallSet (expName (sanitize index)) (labelValues a) verdict] ++
   fixed_calls a r)%list.

Definition entry_id (e : string * float64) : string := expName (sanitize e.1).

(** The last entry of a visiting order that writes the series [id]. *)
Fixpoint last_entry (l : list (string * float64)) (id : string)
  : option (string * float64) :=
  match l with
  | [] => None
  | e :: rest =>
      match last_entry rest id with
      | Some e' => Some e'
      | None => if decide (entry_id e = id) then Some e else None
      end
  end.

(** ** Label values [WithLabelValues] accepts *)

Definition labels_accepted (a : exporterArgs) : Prop :=
  validateLabelValues (labelValues a) (length labelNames) = None.

(** ** Consistency of the recorded names with the registry *)

(** The recorded names are pairwise distinct and valid, and they are
    exactly the names whose series the registry holds next to the three
    fixed ones. *)
Record consistent (w : world) : Prop := {
  cons_NoDup : NoDup (registeredResultMetrics w);
  cons_valid :
    ∀ n, n ∈ registeredResultMetrics w → IsValidMetricName (expName n) = true;
  cons_series :
    ∀ n, n ∈ registeredResultMetrics w →
         is_Some (DefaultRegisterer w !! expName n);
  cons_registry :
    ∀ id, is_Some (DefaultRegisterer w !! id) →
          (∃ f, id = fixedName f) ∨
          (∃ n, n ∈ registeredResultMetrics w ∧ id = expName n)
}.

(** ** Startup and failures *)

(** The state in which [main] starts the poll loop. *)
Definition world_started : world :=
  with_registry world0
    (<[fixedName FailedExperiments := Global FailedExperiments]>
       (<[fixedName PassedExperiments := Global PassedExperiments]>
          (<[fixedName ExperimentsTotal := Global ExperimentsTotal]> ∅))).

Definition args_of (i : startup) : exporterArgs :=
  {| chaosEngine := Getenv i "CHAOSENGINE";
     appUUID := Getenv i "APP_UUID";
     kubernetesVersion := getKubernetesVersion i;
     openebsVersion := getOpenebsVersion i |}.

Definition duplicate_registration (f : failure) : Prop :=
  match f with
  | RegisterPanic (AlreadyRegistered _) => True
  | _ => False
  end.

Definition failed_as_duplicate {A} (o : outcome A) : Prop :=
  match o with
  | Halt f _ => duplicate_registration f
  | Done _ _ => False
  end.

(** ** A running example: the polls of an engine with three experiments *)

Definition scenario_startup : startup :=
  {| environ := <["APP_UUID" := "1c3b5e0a"]> (<["CHAOSENGINE" := "engine-nginx"]> ∅);
     loadConfig := None;
     getKubernetesVersion := "v1.15.0";
     getOpenebsVersion := "1.0.0" |}.

Definition scenario_args : exporterArgs := args_of scenario_startup.

Definition scenario_poll1 : chaosMetrics :=
  {| expTotal := 3; passTotal := 1; failTotal := 1;
     expMap := <["pod-failure" := 3%float]> (<["container-kill" := 1%float]> ∅) |}.

Definition scenario_order1 : list (string * float64) :=
  [("pod-failure", 3%float); ("container-kill", 1%float)].

Definition scenario_poll2 : chaosMetrics :=
  {| expTotal := 4; passTotal := 2; failTotal := 1;
     expMap := <["pod-failure" := 3%float]>
                 (<["container-kill" := 1%float]>
                    (<["network-delay" := 1%float]> ∅)) |}.

Definition scenario_order2 : list (string * float64) :=
  [("network-delay", 1%float); ("pod-failure", 3%float);
   ("container-kill", 1%float)].

(** The state after the first poll of the example. *)
Definition scenario_world1 : world :=
  world_of (exporter scenario_args [FetchOk scenario_poll1 scenario_order1]
                     world_started).

(** ** Notions used in the further properties *)

(** A byte of an experiment name that gives a metric name byte after
    sanitization. *)
Definition accepted_byte (c : ascii) : bool := name_char c || Ascii.eqb c "-".

(** In a trace, every Unregister call is directly followed by a Register
    call for the same identity. *)
Fixpoint well_paired (t : list call) : bool :=
  match t with
  | [] => true
  | CallUnregister id :: rest =>
      match rest with
      | CallRegister id' :: rest' => String.eqb id id' && well_paired rest'
      | _ => false
      end
  | _ :: rest => well_paired rest
  end.

(** A first poll followed by a failed fetch. *)
Definition scenario_outage : list tick :=
  [FetchOk scenario_poll1 scenario_order1; FetchErr "connection refused"].

(** A poll over two names with one sanitized form. *)
Definition scenario_collision : chaosMetrics :=
  {| expTotal := 2; passTotal := 0; failTotal := 1;
     expMap := <["pod-delete" := 1%float]> (<["pod_delete" := 2%float]> ∅) |}.

(** A poll that reports one experiment only. *)
Definition scenario_poll3 : chaosMetrics :=
  {| expTotal := 1; passTotal := 0; failTotal := 0;
     expMap := <["network-delay" := 1%float]> ∅ |}.

(** * Lemmas *)

(** ** Sanitization and names *)

Lemma prefix_empty (s : string) : String.prefix "" s = true.
Proof. by destruct s. Qed.

Lemma prefix_dash (c : ascii) (s : string) :
  String.prefix "-" (String c s) = Ascii.eqb c "-".
Proof.
  change (String.prefix "-" (String c s))
    with (if ascii_dec "-" c then String.prefix "" s else false).
  destruct (ascii_dec "-" c) as [<-|Hne].
  - by rewrite prefix_empty.
  - symmetry. apply Ascii.eqb_neq. congruence.
Qed.

Lemma replace_from_all_step (old new : string) (c : ascii) (s : string) :
  Strings.replace_from old new (String c s) 0 None =
  if String.prefix old (String c s)
  then new ++ Strings.replace_from old new s (Nat.pred (String.length old)) None
  else String c (Strings.replace_from old new s 0 None).
Proof. reflexivity. Qed.

Lemma sanitize_bytes (index : string) :
  sanitize index = map_bytes dash_to_underscore index.
Proof.
  unfold sanitize, Strings.Replace.
  change (String.eqb "-" "_" || (-1 =? 0)%Z) with false.
  change (String.eqb "-" "") with false.
  change (Strings.limit_of (-1)) with (@None nat). cbv iota.
  induction index as [|c s IH]; [done|].
  rewrite replace_from_all_step, prefix_dash.
  change (Nat.pred (String.length "-")) with 0. rewrite IH.
  cbn [map_bytes]. generalize (map_bytes dash_to_underscore s). intros x.
  unfold dash_to_underscore. by destruct (Ascii.eqb c "-").
Qed.

Lemma bytes_map_bytes (f : ascii → ascii) (s : string) :
  bytes (map_bytes f s) = f <$> bytes s.
Proof. induction s as [|c s IH]; cbn; [done|]. by f_equal. Qed.

Lemma expName_eq (n : string) :
  expName n = if String.eqb n "" then "" else "c_exp_" ++ n.
Proof. unfold expName, BuildFQName. by destruct (String.eqb n ""). Qed.

Lemma expName_inj (n1 n2 : string) : expName n1 = expName n2 → n1 = n2.
Proof.
  rewrite !expName_eq.
  destruct (String.eqb_spec n1 "") as [->|H1], (String.eqb_spec n2 "") as [->|H2];
    cbv [String.append]; congruence.
Qed.

Lemma expName_fixed (n : string) (f : fixedGauge) : expName n ≠ fixedName f.
Proof.
  rewrite expName_eq.
  destruct (String.eqb n ""), f; cbv; discriminate.
Qed.

Lemma contains_elem_of (l : list string) (e : string) :
  contains l e = true ↔ e ∈ l.
Proof.
  induction l as [|i l IH]; cbn.
  - split; [discriminate|]. by intros ?%elem_of_nil.
  - rewrite elem_of_cons. destruct (String.eqb_spec i e) as [->|Hne].
    + split; auto.
    + rewrite IH. split; [auto|]. intros [?|?]; congruence.
Qed.

Lemma contains_false (l : list string) (e : string) :
  contains l e = false ↔ e ∉ l.
Proof.
  rewrite <- contains_elem_of. destruct (contains l e); split; congruence.
Qed.

(** ** The loop body and the loops *)

(** The loop body, case by case. *)
Lemma exporter_entry_eq (a : exporterArgs) (r : chaosMetrics)
      (index : string) (verdict : float64) (w : world) :
  exporter_entry a r index verdict w =
  let id := expName (sanitize index) in
  if contains (registeredResultMetrics w) (sanitize index) then
    if IsValidMetricName id
    then (entry_calls a r index verdict true,
          Done tt (entry_effect a r index verdict w))
    else ([CallUnregister id; CallRegister id],
          Halt (RegisterPanic (InvalidDesc id))
               (with_registry w (delete id (DefaultRegisterer w))))
  else
    if IsValidMetricName id
    then match DefaultRegisterer w !! id with
         | Some _ => ([CallRegister id],
                      Halt (RegisterPanic (AlreadyRegistered id)) w)
         | None => (entry_calls a r index verdict false,
                    Done tt (entry_effect a r index verdict w))
         end
    else ([CallRegister id], Halt (RegisterPanic (InvalidDesc id)) w).
Proof.
  unfold exporter_entry, entry_effect, entry_calls.
  generalize (sanitize index). intros n.
  destruct w as [reg et pe fe dr].
  unfold mbind, Run_bind, bind, get_registered. cbn [registeredResultMetrics].
  destruct (contains reg n).
  - unfold prometheus_Unregister, prometheus_MustRegister, Register, Unregister.
    cbn [descName fqName NewGaugeVec expOpts Namespace Subsystem Name
         DefaultRegisterer registeredResultMetrics experimentsTotal
         passedExperiments failedExperiments].
    fold (expName n).
    destruct (IsValidMetricName (expName n)); cbn [negb]; [|done].
    rewrite lookup_delete_eq.
    cbn. fold (expName n).
    rewrite insert_delete_eq, alter_insert_eq. done.
  - unfold prometheus_MustRegister, Register.
    cbn [descName fqName NewGaugeVec expOpts Namespace Subsystem Name
         DefaultRegisterer registeredResultMetrics experimentsTotal
         passedExperiments failedExperiments].
    fold (expName n).
    destruct (IsValidMetricName (expName n)); cbn [negb]; [|done].
    destruct (dr !! expName n); [done|].
    cbn. fold (expName n).
    rewrite alter_insert_eq. done.
Qed.

Lemma reconcile_cons (a : exporterArgs) (r : chaosMetrics) (index : string)
      (verdict : float64) (rest : list (string * float64)) (w : world) :
  reconcile a r ((index, verdict) :: rest) w =
  match exporter_entry a r index verdict w with
  | (t1, Done _ w1) =>
      match reconcile a r rest w1 with
      | (t2, o) => ((t1 ++ t2)%list, o)
      end
  | (t1, Halt f w1) => (t1, Halt f w1)
  end.
Proof. reflexivity. Qed.

Lemma exporter_cons (a : exporterArgs) (t : tick) (rest : list tick) (w : world) :
  exporter a (t :: rest) w =
  match poll a t w with
  | (t1, Done _ w1) =>
      match exporter a rest w1 with
      | (t2, o) => ((t1 ++ t2)%list, o)
      end
  | (t1, Halt f w1) => (t1, Halt f w1)
  end.
Proof. reflexivity. Qed.

(** ** Relations between the state before and after a step *)

Section StepRelation.
Variable R : world → world → Prop.
Hypothesis R_refl : ∀ w, R w w.
Hypothesis R_trans : ∀ w1 w2 w3, R w1 w2 → R w2 w3 → R w1 w3.
Hypothesis R_entry :
  ∀ a r index verdict w, R w (world_of (exporter_entry a r index verdict w)).

Lemma reconcile_related a r order w : R w (world_of (reconcile a r order w)).
Proof using R_refl R_trans R_entry.
  revert w. induction order as [|[index verdict] rest IH]; intros w.
  - apply R_refl.
  - rewrite reconcile_cons.
    pose proof (R_entry a r index verdict w) as He.
    destruct (exporter_entry a r index verdict w) as [t1 [u w1|f w1]];
      [|exact He].
    specialize (IH w1).
    destruct (reconcile a r rest w1) as [t2 o].
    eapply R_trans; [exact He|exact IH].
Qed.

Lemma poll_related a t w : R w (world_of (poll a t w)).
Proof using R_refl R_trans R_entry.
  destruct t as [err|r order]; [apply R_refl|apply reconcile_related].
Qed.

Lemma exporter_related a ticks w : R w (world_of (exporter a ticks w)).
Proof using R_refl R_trans R_entry.
  revert w. induction ticks as [|t rest IH]; intros w.
  - apply R_refl.
  - rewrite exporter_cons.
    pose proof (poll_related a t w) as Hp.
    destruct (poll a t w) as [t1 [u w1|f w1]]; [|exact Hp].
    specialize (IH w1).
    destruct (exporter a rest w1) as [t2 o].
    eapply R_trans; [exact Hp|exact IH].
Qed.
End StepRelation.

(** The recorded names after the loop body: unchanged, or extended by a
    name the membership check did not find. *)
Lemma exporter_entry_registered a r index verdict w :
  let w' := world_of (exporter_entry a r index verdict w) in
  registeredResultMetrics w' = registeredResultMetrics w ∨
  (contains (registeredResultMetrics w) (sanitize index) = false ∧
   registeredResultMetrics w' =
     (registeredResultMetrics w ++ [sanitize index])%list).
Proof.
  rewrite exporter_entry_eq. cbv zeta.
  destruct (contains (registeredResultMetrics w) (sanitize index)) eqn:Hc;
    destruct (IsValidMetricName (expName (sanitize index)));
    try destruct (DefaultRegisterer w !! expName (sanitize index));
    cbn; rewrite ?Hc; auto.
Qed.

Lemma exporter_entry_prefix a r index verdict w :
  registeredResultMetrics w `prefix_of`
  registeredResultMetrics (world_of (exporter_entry a r index verdict w)).
Proof.
  destruct (exporter_entry_registered a r index verdict w) as [->|[_ ->]].
  - done.
  - by apply prefix_app_r.
Qed.

Lemma exporter_entry_NoDup a r index verdict w :
  NoDup (registeredResultMetrics w) →
  NoDup (registeredResultMetrics (world_of (exporter_entry a r index verdict w))).
Proof.
  intros Hnd.
  destruct (exporter_entry_registered a r index verdict w) as [->|[Hc ->]].
  - done.
  - apply contains_false in Hc.
    apply NoDup_app. split_and!; [done| |apply NoDup_singleton].
    intros x Hx ->%list_elem_of_singleton. done.
Qed.

Lemma reconcile_prefix a r order w :
  registeredResultMetrics w `prefix_of`
  registeredResultMetrics (world_of (reconcile a r order w)).
Proof.
  apply (reconcile_related
           (λ w w', registeredResultMetrics w `prefix_of` registeredResultMetrics w')).
  - done.
  - intros w1 w2 w3 H1 H2. by etrans.
  - apply exporter_entry_prefix.
Qed.

(** ** Consistency is kept *)

Lemma consistent_fresh (w : world) (n : string) :
  consistent w → n ∉ registeredResultMetrics w →
  DefaultRegisterer w !! expName n = None.
Proof.
  intros Hc Hn. apply eq_None_not_Some. intros Hs.
  destruct (cons_registry w Hc _ Hs) as [[f Hf]|[n' [Hn' He]]].
  - by apply expName_fixed in Hf.
  - apply expName_inj in He. by subst.
Qed.

(** From a consistent state the loop body either completes, or stops at
    the registration of a name that is not a metric name; it never meets a
    series that is already registered. *)
Lemma exporter_entry_consistent a r index verdict w :
  consistent w →
  (IsValidMetricName (expName (sanitize index)) = true ∧
   exporter_entry a r index verdict w =
     (entry_calls a r index verdict
                  (contains (registeredResultMetrics w) (sanitize index)),
      Done tt (entry_effect a r index verdict w))) ∨
  (IsValidMetricName (expName (sanitize index)) = false ∧
   exporter_entry a r index verdict w =
     ([CallRegister (expName (sanitize index))],
      Halt (RegisterPanic (InvalidDesc (expName (sanitize index)))) w)).
Proof.
  intros Hc. rewrite exporter_entry_eq. cbv zeta.
  destruct (contains (registeredResultMetrics w) (sanitize index)) eqn:Hin.
  - apply contains_elem_of in Hin.
    rewrite (cons_valid w Hc _ Hin). by left.
  - apply contains_false in Hin.
    rewrite (consistent_fresh w _ Hc Hin).
    destruct (IsValidMetricName (expName (sanitize index))); [by left|by right].
Qed.

Lemma entry_effect_consistent a r index verdict w :
  consistent w →
  IsValidMetricName (expName (sanitize index)) = true →
  consistent (entry_effect a r index verdict w).
Proof.
  intros Hc Hv. unfold entry_effect. cbv zeta.
  destruct (contains (registeredResultMetrics w) (sanitize index)) eqn:Hin.
  - apply contains_elem_of in Hin.
    split; cbn [registeredResultMetrics DefaultRegisterer].
    + apply Hc.
    + apply Hc.
    + intros n Hn. rewrite lookup_insert_is_Some'. right. by apply Hc.
    + intros id [<-|Hs]%lookup_insert_is_Some'.
      * right. eauto.
      * by apply Hc.
  - apply contains_false in Hin.
    split; cbn [registeredResultMetrics DefaultRegisterer].
    + apply NoDup_app. split_and!; [apply Hc| |apply NoDup_singleton].
      intros x Hx ->%list_elem_of_singleton. done.
    + intros n [Hn| ->%list_elem_of_singleton]%elem_of_app; [by apply Hc|done].
    + intros n Hn. rewrite lookup_insert_is_Some'.
      apply elem_of_app in Hn as [Hn| ->%list_elem_of_singleton].
      * right. by apply Hc.
      * by left.
    + intros id [<-|Hs]%lookup_insert_is_Some'.
      * right. exists (sanitize index). split; [|done].
        apply elem_of_app. right. by apply list_elem_of_singleton.
      * destruct (cons_registry w Hc _ Hs) as [?|[n [Hn ->]]]; [by left|].
        right. exists n. split; [|done]. apply elem_of_app. by left.
Qed.

Lemma exporter_entry_keeps_consistent a r index verdict w :
  consistent w → consistent (world_of (exporter_entry a r index verdict w)).
Proof.
  intros Hc.
  destruct (exporter_entry_consistent a r index verdict w Hc)
    as [[Hv ->]|[Hv ->]]; cbn.
  - by apply entry_effect_consistent.
  - done.
Qed.

Lemma exporter_keeps_consistent a ticks w :
  consistent w → consistent (world_of (exporter a ticks w)).
Proof.
  apply (exporter_related (λ w w', consistent w → consistent w')); auto.
  intros. by apply exporter_entry_keeps_consistent.
Qed.

Lemma reconcile_keeps_consistent a r order w :
  consistent w → consistent (world_of (reconcile a r order w)).
Proof.
  apply (reconcile_related (λ w w', consistent w → consistent w')); auto.
  intros. by apply exporter_entry_keeps_consistent.
Qed.

(** ** Failures that the loops cannot end in *)

Section Safety.
Variable I : world → Prop.
Variable bad : failure → Prop.
Hypothesis I_entry :
  ∀ a r index verdict w, I w → I (world_of (exporter_entry a r index verdict w)).
Hypothesis entry_safe :
  ∀ a r index verdict w t f w',
    I w → exporter_entry a r index verdict w = (t, Halt f w') → ¬ bad f.
Hypothesis fatal_safe : ∀ msg, ¬ bad (LogFatal msg).

Lemma reconcile_safe a r order w t f w' :
  I w → reconcile a r order w = (t, Halt f w') → ¬ bad f.
Proof using I_entry entry_safe.
  revert w t. induction order as [|[index verdict] rest IH]; intros w t Hw.
  - discriminate.
  - rewrite reconcile_cons.
    pose proof (I_entry a r index verdict w Hw) as Hi.
    pose proof (entry_safe a r index verdict w) as Hs.
    destruct (exporter_entry a r index verdict w) as [t1 [u w1|f1 w1]].
    + specialize (IH w1). cbn in Hi.
      destruct (reconcile a r rest w1) as [t2 o]. intros [= <- ->].
      by eapply IH.
    + intros [= <- <- <-]. by eapply Hs.
Qed.

Lemma reconcile_keeps a r order w : I w → I (world_of (reconcile a r order w)).
Proof using I_entry.
  apply (reconcile_related (λ w w', I w → I w')); auto.
Qed.

Lemma exporter_safe a ticks w t f w' :
  I w → exporter a ticks w = (t, Halt f w') → ¬ bad f.
Proof using I_entry entry_safe fatal_safe.
  revert w t. induction ticks as [|tk rest IH]; intros w t Hw.
  - discriminate.
  - rewrite exporter_cons.
    destruct tk as [err|r order].
    + cbn. intros [= <- <- <-]. apply fatal_safe.
    + cbn [poll].
      pose proof (reconcile_keeps a r order w Hw) as Hi.
      pose proof (reconcile_safe a r order w) as Hs.
      destruct (reconcile a r order w) as [t1 [u w1|f1 w1]].
      * specialize (IH w1). cbn in Hi.
        destruct (exporter a rest w1) as [t2 o]. intros [= <- ->].
        by eapply IH.
      * intros [= <- <- <-]. by eapply Hs.
Qed.
End Safety.

(** ** Startup *)

Lemma main_eq (i : startup) :
  main i world0 =
  match loadConfig i with
  | Some err => ([], Halt (Panic err) world0)
  | None =>
      if String.eqb (Getenv i "CHAOSENGINE") "" || String.eqb (Getenv i "APP_UUID") ""
      then ([], Halt (LogFatal "ERROR: please specify correct APP_UUID & CHAOSENGINE ENVs")
                     world0)
      else ([CallRegister (fixedName ExperimentsTotal);
             CallRegister (fixedName PassedExperiments);
             CallRegister (fixedName FailedExperiments)],
            Done (args_of i) world_started)
  end.
Proof.
  unfold main. destruct (loadConfig i); [done|].
  destruct (String.eqb (Getenv i "CHAOSENGINE") "" || String.eqb (Getenv i "APP_UUID") "");
    [done|].
  reflexivity.
Qed.

Lemma world_started_consistent : consistent world_started.
Proof.
  split; cbn [world_started with_registry world0 registeredResultMetrics
              DefaultRegisterer].
  - apply NoDup_nil_2.
  - by intros n ?%elem_of_nil.
  - by intros n ?%elem_of_nil.
  - intros id Hs. left.
    apply lookup_insert_is_Some' in Hs as [<-|Hs]; [by eexists|].
    apply lookup_insert_is_Some' in Hs as [<-|Hs]; [by eexists|].
    apply lookup_insert_is_Some' in Hs as [<-|Hs]; [by eexists|].
    rewrite lookup_empty in Hs. by destruct Hs.
Qed.

Lemma process_eq (i : startup) (ticks : list tick) :
  process i ticks world0 =
  match main i world0 with
  | (t1, Done a w1) =>
      match exporter a ticks w1 with
      | (t2, o) => ((t1 ++ t2)%list, o)
      end
  | (t1, Halt f w1) => (t1, Halt f w1)
  end.
Proof. reflexivity. Qed.

(** The state the process is in is always one [main] left as it was or
    one the loop reached from [world_started]. *)
Lemma process_world (i : startup) (ticks : list tick) :
  world_of (process i ticks world0) = world0 ∨
  world_of (process i ticks world0) =
    world_of (exporter (args_of i) ticks world_started).
Proof.
  rewrite process_eq, main_eq.
  destruct (loadConfig i); [by left|].
  destruct (String.eqb (Getenv i "CHAOSENGINE") "" || String.eqb (Getenv i "APP_UUID") "");
    [by left|].
  right. by destruct (exporter (args_of i) ticks world_started) as [t2 [u w|f w]].
Qed.

Lemma exporter_no_duplicate a ticks w t f w' :
  consistent w → exporter a ticks w = (t, Halt f w') → ¬ duplicate_registration f.
Proof.
  apply (exporter_safe consistent duplicate_registration).
  - intros. by apply exporter_entry_keeps_consistent.
  - clear. intros a r index verdict w t f w' Hc He.
    destruct (exporter_entry_consistent a r index verdict w Hc)
      as [[_ Hd]|[_ Hh]]; rewrite He in *; [discriminate|].
    injection Hh as _ -> _. by intros [].
  - by intros msg [].
Qed.

Lemma process_no_duplicate i ticks t f w' :
  process i ticks world0 = (t, Halt f w') → ¬ duplicate_registration f.
Proof.
  rewrite process_eq, main_eq.
  destruct (loadConfig i); [by intros [= _ <- _] []|].
  destruct (String.eqb (Getenv i "CHAOSENGINE") "" || String.eqb (Getenv i "APP_UUID") "");
    [by intros [= _ <- _] []|].
  pose proof (exporter_no_duplicate (args_of i) ticks world_started) as Hs.
  destruct (exporter (args_of i) ticks world_started) as [t2 o].
  intros [= _ ->]. eapply Hs; [apply world_started_consistent|done].
Qed.

(** ** What a completed reconciliation step leaves *)

Lemma last_entry_Some l id e :
  last_entry l id = Some e → e ∈ l ∧ entry_id e = id.
Proof.
  induction l as [|e0 rest IH]; cbn; [done|].
  destruct (last_entry rest id) as [e'|].
  - intros [= ->]. destruct IH as [Hin Hid]; [done|].
    split; [by apply list_elem_of_further|done].
  - case_decide; [|done]. intros [= ->]. split; [apply list_elem_of_here|done].
Qed.

Lemma last_entry_is_Some l e : e ∈ l → is_Some (last_entry l (entry_id e)).
Proof.
  induction l as [|e0 rest IH]; [by intros ?%elem_of_nil|].
  intros [->|Hin]%elem_of_cons; cbn.
  - destruct (last_entry rest (entry_id e0)); [by eexists|].
    rewrite decide_True by done. by eexists.
  - destruct (IH Hin) as [e' ->]. by eexists.
Qed.

Lemma last_entry_NoDup l e :
  NoDup (entry_id <$> l) → e ∈ l → last_entry l (entry_id e) = Some e.
Proof.
  induction l as [|e0 rest IH]; [by intros _ ?%elem_of_nil|].
  rewrite fmap_cons, NoDup_cons. intros [Hn Hnd] [->|Hin]%elem_of_cons; cbn.
  - destruct (last_entry rest (entry_id e0)) as [e'|] eqn:Hl.
    + apply last_entry_Some in Hl as [Hin' Hid]. exfalso. apply Hn.
      rewrite <- Hid. apply list_elem_of_fmap. by exists e'.
    + by rewrite decide_True.
  - by rewrite (IH Hnd Hin).
Qed.

Lemma exporter_entry_Done a r index verdict w t u w1 :
  exporter_entry a r index verdict w = (t, Done u w1) →
  IsValidMetricName (expName (sanitize index)) = true ∧
  w1 = entry_effect a r index verdict w.
Proof.
  rewrite exporter_entry_eq. cbv zeta.
  destruct (contains (registeredResultMetrics w) (sanitize index));
    destruct (IsValidMetricName (expName (sanitize index)));
    try destruct (DefaultRegisterer w !! expName (sanitize index));
    intros [=]; auto.
Qed.

Lemma reconcile_cons_Done a r index verdict rest w t u w' :
  reconcile a r ((index, verdict) :: rest) w = (t, Done u w') →
  IsValidMetricName (expName (sanitize index)) = true ∧
  ∃ t2, reconcile a r rest (entry_effect a r index verdict w) = (t2, Done u w').
Proof.
  rewrite reconcile_cons.
  destruct (exporter_entry a r index verdict w) as [t1 [u1 w1|f1 w1]] eqn:He;
    [|discriminate].
  apply exporter_entry_Done in He as [Hv ->].
  destruct (reconcile a r rest (entry_effect a r index verdict w)) as [t2 o].
  intros [= _ ->]. split; [done|]. by eexists.
Qed.

Lemma reconcile_nil_Done a r w t u w' :
  reconcile a r [] w = (t, Done u w') → w' = w.
Proof. intros H. by inversion H. Qed.

Lemma reconcile_Done_valid a r order w t u w' :
  reconcile a r order w = (t, Done u w') →
  ∀ e, e ∈ order → IsValidMetricName (entry_id e) = true.
Proof.
  revert w t. induction order as [|[index verdict] rest IH]; intros w t Hr e.
  - by intros ?%elem_of_nil.
  - apply reconcile_cons_Done in Hr as [Hv [t2 Hr]].
    intros [->|Hin]%elem_of_cons; [done|]. by eapply IH.
Qed.

(** The registry after a completed step: every series written by the
    step holds the gauge of the last entry that wrote it, with the single
    child of the current label values; all others are as before. *)
Lemma reconcile_Done_registry a r order w t u w' :
  reconcile a r order w = (t, Done u w') →
  ∀ id, DefaultRegisterer w' !! id =
        match last_entry order id with
        | Some e => Some (Owned (expGauge a (sanitize e.1) e.2))
        | None => DefaultRegisterer w !! id
        end.
Proof.
  revert w t. induction order as [|[index verdict] rest IH]; intros w t Hr id.
  - by apply reconcile_nil_Done in Hr as ->.
  - apply reconcile_cons_Done in Hr as [Hv [t2 Hr]].
    rewrite (IH _ _ Hr id). cbn [last_entry].
    destruct (last_entry rest id); [done|].
    cbn [entry_effect DefaultRegisterer]. unfold entry_id. cbn [fst snd].
    case_decide as Hid.
    + by rewrite <- Hid, lookup_insert_eq.
    + by rewrite lookup_insert_ne.
Qed.

Lemma reconcile_Done_registered a r order w t u w' :
  reconcile a r order w = (t, Done u w') →
  ∀ e, e ∈ order → sanitize e.1 ∈ registeredResultMetrics w'.
Proof.
  revert w t. induction order as [|[index verdict] rest IH]; intros w t Hr e.
  - by intros ?%elem_of_nil.
  - pose proof Hr as Hr0.
    apply reconcile_cons_Done in Hr as [Hv [t2 Hr]].
    intros [->|Hin]%elem_of_cons; [|by eapply IH].
    pose proof (reconcile_prefix a r rest (entry_effect a r index verdict w))
      as Hp.
    rewrite Hr in Hp. destruct Hp as [k Hk]. cbn in Hk. rewrite Hk.
    apply elem_of_app. left. cbn [fst].
    destruct (contains (registeredResultMetrics w) (sanitize index)) eqn:Hc.
    + by apply contains_elem_of.
    + apply elem_of_app. right. by apply list_elem_of_singleton.
Qed.

(** A step all of whose names are recorded and valid completes and
    leaves the list of recorded names as it is. *)
Lemma reconcile_known a r order w :
  (∀ e, e ∈ order → sanitize e.1 ∈ registeredResultMetrics w ∧
                    IsValidMetricName (entry_id e) = true) →
  ∃ t w', reconcile a r order w = (t, Done tt w') ∧
          registeredResultMetrics w' = registeredResultMetrics w.
Proof.
  revert w. induction order as [|[index verdict] rest IH]; intros w Hk.
  - by exists [], w.
  - destruct (Hk (index, verdict)) as [Hin Hv]; [apply list_elem_of_here|].
    cbn [fst] in Hin. unfold entry_id in Hv. cbn [fst] in Hv.
    apply contains_elem_of in Hin.
    assert (Hreg : registeredResultMetrics (entry_effect a r index verdict w) =
                   registeredResultMetrics w).
    { cbn. by rewrite Hin. }
    destruct (IH (entry_effect a r index verdict w)) as (t2 & w' & Hr & Hreg').
    { intros e He. rewrite Hreg. apply Hk. by apply list_elem_of_further. }
    rewrite reconcile_cons, exporter_entry_eq. cbv zeta. rewrite Hin, Hv, Hr.
    eexists _, w'. split; [done|]. by rewrite Hreg', Hreg.
Qed.

(** The children of the three fixed vectors after a completed step over
    at least one entry. *)
Lemma reconcile_Done_fixed a r order w t u w' :
  reconcile a r order w = (t, Done u w') → order ≠ [] →
  experimentsTotal w' = <[labelValues a := expTotal r]> (experimentsTotal w) ∧
  passedExperiments w' = <[labelValues a := passTotal r]> (passedExperiments w) ∧
  failedExperiments w' = <[labelValues a := failTotal r]> (failedExperiments w).
Proof.
  revert w t. induction order as [|[index verdict] rest IH]; intros w t Hr Hne;
    [done|].
  apply reconcile_cons_Done in Hr as [Hv [t2 Hr]].
  destruct rest as [|e rest].
  - by apply reconcile_nil_Done in Hr as ->.
  - destruct (IH _ _ Hr) as (-> & -> & ->); [done|].
    cbn [entry_effect experimentsTotal passedExperiments failedExperiments].
    by rewrite !insert_insert_eq.
Qed.

(** A second step over the same map, right after a completed first one,
    completes and keeps the recorded names. *)
Lemma reconcile_again a r1 r2 order1 order2 w t1 w1 :
  order2 ≡ₚ order1 →
  reconcile a r1 order1 w = (t1, Done tt w1) →
  ∃ t2 w2, reconcile a r2 order2 w1 = (t2, Done tt w2) ∧
           registeredResultMetrics w2 = registeredResultMetrics w1.
Proof.
  intros Hp Hr. apply reconcile_known. intros e He. rewrite Hp in He. split.
  - by eapply reconcile_Done_registered.
  - by eapply reconcile_Done_valid.
Qed.

Lemma completed_Done (x : list call * outcome unit) :
  completed x = true → ∃ t, x = (t, Done tt (world_of x)).
Proof.
  destruct x as [t [[] w|f w]]; cbn; [|discriminate]. intros _. by exists t.
Qed.

(** From a consistent state, a step over valid names completes. *)
Lemma reconcile_valid_completes a r order w :
  consistent w →
  (∀ e, e ∈ order → IsValidMetricName (entry_id e) = true) →
  ∃ t w', reconcile a r order w = (t, Done tt w').
Proof.
  revert w. induction order as [|[index verdict] rest IH]; intros w Hc Hv.
  - by exists [], w.
  - rewrite reconcile_cons.
    destruct (exporter_entry_consistent a r index verdict w Hc)
      as [[Hvi ->]|[Hvi _]].
    + destruct (IH (entry_effect a r index verdict w)) as (t2 & w' & ->).
      * by apply entry_effect_consistent.
      * intros e He. apply Hv. by apply list_elem_of_further.
      * by eexists _, _.
    + specialize (Hv (index, verdict) ltac:(apply list_elem_of_here)).
      unfold entry_id in Hv. cbn [fst] in Hv. congruence.
Qed.


Lemma range_order_elem_of (m : gmap string float64) order k v :
  range_order m order → (k, v) ∈ order ↔ m !! k = Some v.
Proof. intros Hp. unfold range_order in Hp. by rewrite Hp, elem_of_map_to_list. Qed.

Lemma range_order_NoDup_ids (m : gmap string float64) order :
  range_order m order →
  (∀ k1 k2, is_Some (m !! k1) → is_Some (m !! k2) →
            sanitize k1 = sanitize k2 → k1 = k2) →
  NoDup (entry_id <$> order).
Proof.
  intros Hp Hinj.
  assert (Hkey : ∀ k, k ∈ order.*1 → is_Some (m !! k)).
  { intros k [[k' v] [-> Hin]]%list_elem_of_fmap. exists v.
    by apply (range_order_elem_of m order). }
  replace (entry_id <$> order) with ((λ k, expName (sanitize k)) <$> order.*1).
  - apply NoDup_fmap_2_strong.
    + intros k1 k2 H1 H2 He. apply expName_inj in He. apply Hinj; auto.
    + unfold range_order in Hp. rewrite Hp. apply NoDup_fst_map_to_list.
  - rewrite <- list_fmap_compose. done.
Qed.

(** ** The running example *)

Lemma scenario_world1_consistent : consistent scenario_world1.
Proof. apply exporter_keeps_consistent, world_started_consistent. Qed.

Lemma scenario_order1_ok : range_order (expMap scenario_poll1) scenario_order1.
Proof. unfold range_order. vm_compute. apply Permutation_swap. Qed.

Lemma scenario_order1_ok' :
  range_order (expMap scenario_poll1) (reverse scenario_order1).
Proof. unfold range_order. vm_compute. reflexivity. Qed.

Lemma scenario_order2_ok : range_order (expMap scenario_poll2) scenario_order2.
Proof.
  unfold range_order. vm_compute. symmetry.
  apply (Permutation_cons_append [("network-delay", 1%float); ("pod-failure", 3%float)]).
Qed.


Lemma scenario_poll1_completed :
  completed (poll scenario_args (FetchOk scenario_poll1 scenario_order1)
                  world_started) = true.
Proof. vm_compute. reflexivity. Qed.

Lemma scenario_poll1_no_collision (k1 k2 : string) :
  is_Some (expMap scenario_poll1 !! k1) →
  is_Some (expMap scenario_poll1 !! k2) →
  sanitize k1 = sanitize k2 → k1 = k2.
Proof.
  intros [v1 H1] [v2 H2].
  apply (range_order_elem_of _ _ k1 v1 scenario_order1_ok) in H1.
  apply (range_order_elem_of _ _ k2 v2 scenario_order1_ok) in H2.
  unfold scenario_order1 in *.
  apply elem_of_cons in H1 as [[= -> _]|H1];
    [|apply list_elem_of_singleton in H1 as [= -> _]];
    (apply elem_of_cons in H2 as [[= -> _]|H2];
     [|apply list_elem_of_singleton in H2 as [= -> _]]);
    vm_compute; congruence.
Qed.

(** The label values pass the check of [WithLabelValues] exactly when
    each of the four is valid UTF-8. *)
Lemma labels_accepted_iff (a : exporterArgs) :
  labels_accepted a ↔
  utf8.ValidString (appUUID a) = true ∧
  utf8.ValidString (chaosEngine a) = true ∧
  utf8.ValidString (kubernetesVersion a) = true ∧
  utf8.ValidString (openebsVersion a) = true.
Proof.
  unfold labels_accepted, validateLabelValues, labelValues. cbn.
  destruct (utf8.ValidString (appUUID a)),
           (utf8.ValidString (chaosEngine a)),
           (utf8.ValidString (kubernetesVersion a)),
           (utf8.ValidString (openebsVersion a)); cbn;
    split; try done; intros (? & ? & ? & ?); done.
Qed.

(** The label values of the example pass the check. *)
Lemma scenario_labels_accepted : labels_accepted scenario_args.
Proof. reflexivity. Qed.

(** [utf8.ValidString] on an ASCII string, on a two-byte, a three-byte
    and a four-byte encoding, and on a stray byte, an overlong form, a
    surrogate and a cut-off encoding. *)
Example ValidString_samples :
  let b := λ n, String (ascii_of_nat n) "" in
  utf8.ValidString "engine-nginx" = true ∧
  utf8.ValidString (b 195 ++ b 169) = true ∧
  utf8.ValidString (b 226 ++ b 130 ++ b 172) = true ∧
  utf8.ValidString (b 240 ++ b 159 ++ b 152 ++ b 128) = true ∧
  utf8.ValidString (b 255) = false ∧
  utf8.ValidString (b 192 ++ b 128) = false ∧
  utf8.ValidString (b 237 ++ b 160 ++ b 128) = false ∧
  utf8.ValidString (b 226 ++ b 130) = false.
Proof. cbv zeta. split_and!; reflexivity. Qed.

(** The first poll of the example: two names recorded, five series
    exposed. *)
Example scenario_first_poll :
  let lvs := labelValues scenario_args in
  range_order (expMap scenario_poll1) scenario_order1 ∧
  registeredResultMetrics scenario_world1 = ["pod_failure"; "container_kill"] ∧
  exposed scenario_world1 "c_engine_experiment_count" lvs = Some 3%float ∧
  exposed scenario_world1 "c_engine_passed_experiments" lvs = Some 1%float ∧
  exposed scenario_world1 "c_engine_failed_experiments" lvs = Some 1%float ∧
  exposed scenario_world1 "c_exp_pod_failure" lvs = Some 3%float ∧
  exposed scenario_world1 "c_exp_container_kill" lvs = Some 1%float.
Proof.
  cbv zeta. split; [exact scenario_order1_ok|].
  split_and!; vm_compute; reflexivity.
Qed.

(** The second poll of the example: a third name is recorded, the two
    known series keep their values. *)
Example scenario_second_poll :
  let lvs := labelValues scenario_args in
  let w2 := world_of (poll scenario_args (FetchOk scenario_poll2 scenario_order2)
                           scenario_world1) in
  range_order (expMap scenario_poll2) scenario_order2 ∧
  registeredResultMetrics w2 = ["pod_failure"; "container_kill"; "network_delay"] ∧
  exposed w2 "c_engine_experiment_count" lvs = Some 4%float ∧
  exposed w2 "c_engine_passed_experiments" lvs = Some 2%float ∧
  exposed w2 "c_engine_failed_experiments" lvs = Some 1%float ∧
  exposed w2 "c_exp_pod_failure" lvs = Some 3%float ∧
  exposed w2 "c_exp_container_kill" lvs = Some 1%float ∧
  exposed w2 "c_exp_network_delay" lvs = Some 1%float.
Proof.
  cbv zeta. split; [exact scenario_order2_ok|].
  split_and!; vm_compute; reflexivity.
Qed.

(** ** The fixed series after a poll over at least one entry *)

Lemma exposed_fixed (w : world) (f : fixedGauge) (lvs : list string) :
  DefaultRegisterer w !! fixedName f = Some (Global f) →
  exposed w (fixedName f) lvs = children w (Global f) !! lvs.
Proof.
  intros Hf. unfold exposed, Gather. by rewrite lookup_fmap, Hf.
Qed.

Lemma poll_sets_fixed_series a r order w :
  order ≠ [] →
  (∀ f, DefaultRegisterer w !! fixedName f = Some (Global f)) →
  completed (poll a (FetchOk r order) w) = true →
  let w' := world_of (poll a (FetchOk r order) w) in
  exposed w' (fixedName ExperimentsTotal) (labelValues a) = Some (expTotal r) ∧
  exposed w' (fixedName PassedExperiments) (labelValues a) = Some (passTotal r) ∧
  exposed w' (fixedName FailedExperiments) (labelValues a) = Some (failTotal r).
Proof.
  intros Hne Hfix [t Hr]%completed_Done. cbv zeta.
  generalize dependent (world_of (poll a (FetchOk r order) w)).
  intros w' Hr. cbn [poll] in Hr.
  assert (Hkeep : ∀ f, DefaultRegisterer w' !! fixedName f = Some (Global f)).
  { intros f. rewrite (reconcile_Done_registry _ _ _ _ _ _ _ Hr).
    destruct (last_entry order (fixedName f)) as [e|] eqn:Hl; [|done].
    apply last_entry_Some in Hl as [_ He]. by apply expName_fixed in He. }
  destruct (reconcile_Done_fixed _ _ _ _ _ _ _ Hr Hne) as (He & Hp & Hf).
  rewrite !exposed_fixed by done. cbn [children].
  rewrite He, Hp, Hf. by rewrite !lookup_insert_eq.
Qed.

(** * The claims *)

(** C1, as stated, fails: the name [pod-failure] is recorded after the
    first poll of the example, and the loop body of the next poll still
    calls Register for its series, right after an Unregister of the same
    identity. *)
Lemma C1_known_series_registered_again :
  contains (registeredResultMetrics scenario_world1) (sanitize "pod-failure") = true ∧
  calls_of (exporter_entry scenario_args scenario_poll2 "pod-failure" 3%float
                           scenario_world1) =
    [CallUnregister "c_exp_pod_failure";
     CallRegister "c_exp_pod_failure";
     CallSet "c_exp_pod_failure" (labelValues scenario_args) 3%float;
     CallSet "c_engine_experiment_count" (labelValues scenario_args) 4%float;
     CallSet "c_engine_passed_experiments" (labelValues scenario_args) 2%float;
     CallSet "c_engine_failed_experiments" (labelValues scenario_args) 1%float].
Proof. split; vm_compute; reflexivity. Qed.

(** C1, amended: for an experiment name whose sanitized form is already
    recorded, the loop body unregisters the series of that identity,
    registers a newly built series under the same identity, sets its
    value for the current label values and then sets the three fixed
    series; the registration finds the identity free, and at no point of
    the life of the process does a registration fail because the
    identity is already registered. *)
Theorem C1_known_series_is_replaced
        (a : exporterArgs) (r : chaosMetrics) (index : string)
        (verdict : float64) (w : world) :
  consistent w →
  sanitize index ∈ registeredResultMetrics w →
  exporter_entry a r index verdict w =
    ([CallUnregister (expName (sanitize index));
      CallRegister (expName (sanitize index));
      CallSet (expName (sanitize index)) (labelValues a) verdict;
      CallSet (fixedName ExperimentsTotal) (labelValues a) (expTotal r);
      CallSet (fixedName PassedExperiments) (labelValues a) (passTotal r);
      CallSet (fixedName FailedExperiments) (labelValues a) (failTotal r)],
     Done tt (entry_effect a r index verdict w)) ∧
  (∀ i ticks, failed_as_duplicate (process i ticks world0).2 → False).
Proof.
  intros Hc Hin. split.
  - destruct (exporter_entry_consistent a r index verdict w Hc)
      as [[_ ->]|[Hv _]].
    + apply contains_elem_of in Hin. by rewrite Hin.
    + by rewrite (cons_valid w Hc _ Hin) in Hv.
  - intros i ticks.
    pose proof (process_no_duplicate i ticks) as Hs.
    destruct (process i ticks world0) as [t [u w'|f w']]; cbn; [done|].
    by eapply Hs.
Qed.

(** C1 at the second poll of the example, for the recorded name
    [pod-failure]. *)
Lemma C1_known_series_is_replaced_witness :
  consistent scenario_world1 ∧
  sanitize "pod-failure" ∈ registeredResultMetrics scenario_world1 ∧
  exporter_entry scenario_args scenario_poll2 "pod-failure" 3%float
                 scenario_world1 =
    ([CallUnregister (expName (sanitize "pod-failure"));
      CallRegister (expName (sanitize "pod-failure"));
      CallSet (expName (sanitize "pod-failure")) (labelValues scenario_args) 3%float;
      CallSet (fixedName ExperimentsTotal) (labelValues scenario_args)
              (expTotal scenario_poll2);
      CallSet (fixedName PassedExperiments) (labelValues scenario_args)
              (passTotal scenario_poll2);
      CallSet (fixedName FailedExperiments) (labelValues scenario_args)
              (failTotal scenario_poll2)],
     Done tt (entry_effect scenario_args scenario_poll2 "pod-failure" 3%float
                           scenario_world1)).
Proof.
  assert (Hin : sanitize "pod-failure" ∈ registeredResultMetrics scenario_world1).
  { apply contains_elem_of. vm_compute. reflexivity. }
  split; [exact scenario_world1_consistent|]. split; [exact Hin|].
  exact (proj1 (C1_known_series_is_replaced
                  scenario_args scenario_poll2 "pod-failure" 3%float
                  scenario_world1 scenario_world1_consistent Hin)).
Defined.




(** C3, as stated, fails: a dot is a separator that is neither a letter
    nor a digit, and it is still in the sanitized name; only the hyphen
    of [pod.failure-1] is replaced. *)
Lemma C3_dot_is_not_normalized :
  sanitize "pod.failure-1" = "pod.failure_1" ∧
  "."%char ∈ bytes (sanitize "pod.failure-1") ∧
  is_letter "." = false ∧ is_digit "." = false.
Proof.
  split; [vm_compute; reflexivity|]. split; [|done].
  vm_compute. apply list_elem_of_In. cbn. auto.
Qed.

(** C3, amended: the sanitized name is the source name with every hyphen
    replaced by an underscore, byte for byte, and every other byte left as
    it is; it has the length of the source name, and no hyphen remains in
    it. *)
Theorem C3_sanitize_replaces_hyphens (index : string) :
  sanitize index = map_bytes dash_to_underscore index ∧
  String.length (sanitize index) = String.length index ∧
  (∀ c, c ∈ bytes index → c ≠ "-"%char → c ∈ bytes (sanitize index)) ∧
  (∀ c, c ∈ bytes (sanitize index) → c ≠ "-"%char).
Proof.
  rewrite sanitize_bytes. split_and!.
  - done.
  - induction index as [|c s IH]; cbn; [done|]. by f_equal.
  - intros c Hc Hne. rewrite bytes_map_bytes. apply list_elem_of_fmap.
    exists c. split; [|done]. unfold dash_to_underscore.
    by apply Ascii.eqb_neq in Hne as ->.
  - intros c. rewrite bytes_map_bytes.
    intros [c' [-> _]]%list_elem_of_fmap. unfold dash_to_underscore.
    destruct (Ascii.eqb_spec c' "-"); [discriminate|done].
Qed.

(** C3 at the name [pod.failure-1]: the dot stays, the hyphen goes. *)
Lemma C3_sanitize_replaces_hyphens_witness :
  "."%char ∈ bytes "pod.failure-1" ∧
  "."%char ≠ "-"%char ∧
  "."%char ∈ bytes (sanitize "pod.failure-1") ∧
  String.length (sanitize "pod.failure-1") = String.length "pod.failure-1".
Proof.
  assert (Hin : "."%char ∈ bytes "pod.failure-1").
  { apply list_elem_of_In. cbn. auto. }
  assert (Hne : "."%char ≠ "-"%char) by discriminate.
  split; [exact Hin|]. split; [exact Hne|].
  destruct (C3_sanitize_replaces_hyphens "pod.failure-1")
    as (_ & Hlen & Hkeep & _).
  split; [exact (Hkeep _ Hin Hne)|exact Hlen].
Defined.

(** C4: the code sets the three fixed series inside the loop over the
    verdict map, so a poll whose map is empty sets none of them. With the
    answer (0, 0, 0, no experiments) as the first answer after startup no
    value is exposed for the experiment count; as the answer that follows
    the first poll of the example, the three series still show 3, 1 and
    1. For that input the claim (total, passed and failed are reported
    after the poll) does not hold of the code. *)
Theorem C4_empty_map_leaves_fixed_series :
  let none := {| expTotal := 0; passTotal := 0; failTotal := 0; expMap := ∅ |} in
  let lvs := labelValues scenario_args in
  range_order (expMap none) [] ∧
  poll scenario_args (FetchOk none []) world_started = ([], Done tt world_started) ∧
  exposed world_started "c_engine_experiment_count" lvs = None ∧
  poll scenario_args (FetchOk none []) scenario_world1 = ([], Done tt scenario_world1) ∧
  exposed scenario_world1 "c_engine_experiment_count" lvs = Some 3%float ∧
  exposed scenario_world1 "c_engine_passed_experiments" lvs = Some 1%float ∧
  exposed scenario_world1 "c_engine_failed_experiments" lvs = Some 1%float.
Proof.
  cbv zeta. split_and!; try reflexivity.
  unfold range_order. cbn [expMap]. by rewrite map_to_list_empty.
Qed.

(** C5: when the metrics source returns an error in some poll, the run
    of the loop over the answers up to and including that one, and any
    answers after it, is the run over the answers before it, ended by
    the fatal log: the registry calls are those of the earlier polls, the
    state is the one they left, and later answers are never looked at.
    (If an earlier poll already ended the process, that end stands.) *)
Theorem C5_fetch_error_is_fatal
        (a : exporterArgs) (before : list tick) (err : string)
        (after : list tick) (w : world) :
  exporter a (before ++ FetchErr err :: after)%list w =
  (calls_of (exporter a before w),
   match (exporter a before w).2 with
   | Done _ w' => Halt (LogFatal ("Unable to get metrics: " ++ err)) w'
   | Halt f w' => Halt f w'
   end).
Proof.
  revert w. induction before as [|t rest IH]; intros w.
  - reflexivity.
  - change ((t :: rest) ++ FetchErr err :: after)%list
      with (t :: (rest ++ FetchErr err :: after))%list.
    rewrite !exporter_cons.
    destruct (poll a t w) as [t1 [u w1|f w1]]; [|done].
    rewrite IH. unfold calls_of.
    by destruct (exporter a rest w1) as [t2 [u2 w2|f2 w2]].
Qed.

(** C6: when a poll over a verdict map has completed, the next poll over
    the same map, in whatever order its entries are visited and whatever
    the counts are, completes as well, and leaves the list of recorded
    names and the set of series identities in the registry as the first
    poll left them. *)
Theorem C6_same_map_same_registered_series
        (a : exporterArgs) (r1 r2 : chaosMetrics)
        (order1 order2 : list (string * float64)) (w : world) :
  expMap r2 = expMap r1 →
  range_order (expMap r1) order1 →
  range_order (expMap r2) order2 →
  completed (poll a (FetchOk r1 order1) w) = true →
  let w1 := world_of (poll a (FetchOk r1 order1) w) in
  let w2 := world_of (poll a (FetchOk r2 order2) w1) in
  completed (poll a (FetchOk r2 order2) w1) = true ∧
  registeredResultMetrics w2 = registeredResultMetrics w1 ∧
  dom (DefaultRegisterer w2) = dom (DefaultRegisterer w1).
Proof.
  intros Hm Hp1 Hp2 [t1 Hr1]%completed_Done. cbv zeta.
  generalize dependent (world_of (poll a (FetchOk r1 order1) w)).
  intros w1 Hr1. cbn [poll] in *.
  assert (Hp : order2 ≡ₚ order1).
  { unfold range_order in *. by rewrite Hp1, Hp2, Hm. }
  destruct (reconcile_again a r1 r2 order1 order2 w t1 w1 Hp Hr1)
    as (t2 & w2 & Hr2 & Hreg).
  rewrite Hr2. cbn [world_of completed snd]. split_and!; [done|done|].
  apply set_eq. intros id. rewrite !elem_of_dom.
  rewrite (reconcile_Done_registry _ _ _ _ _ _ _ Hr2 id).
  destruct (last_entry order2 id) as [e|] eqn:Hl; [|done].
  apply last_entry_Some in Hl as [Hin <-]. rewrite Hp in Hin.
  rewrite (reconcile_Done_registry _ _ _ _ _ _ _ Hr1 (entry_id e)).
  destruct (last_entry_is_Some order1 e Hin) as [e' ->].
  split; by eexists.
Qed.

(** C6 at the first poll of the example, repeated with its entries
    visited in the opposite order. *)
Lemma C6_same_map_same_registered_series_witness :
  let w1 := world_of (poll scenario_args (FetchOk scenario_poll1 scenario_order1)
                           world_started) in
  let w2 := world_of (poll scenario_args
                           (FetchOk scenario_poll1 (reverse scenario_order1)) w1) in
  range_order (expMap scenario_poll1) scenario_order1 ∧
  range_order (expMap scenario_poll1) (reverse scenario_order1) ∧
  completed (poll scenario_args (FetchOk scenario_poll1 scenario_order1)
                  world_started) = true ∧
  completed (poll scenario_args
                  (FetchOk scenario_poll1 (reverse scenario_order1)) w1) = true ∧
  registeredResultMetrics w2 = registeredResultMetrics w1 ∧
  dom (DefaultRegisterer w2) = dom (DefaultRegisterer w1).
Proof.
  cbv zeta.
  split; [exact scenario_order1_ok|].
  split; [exact scenario_order1_ok'|].
  split; [exact scenario_poll1_completed|].
  exact (C6_same_map_same_registered_series
           scenario_args scenario_poll1 scenario_poll1
           scenario_order1 (reverse scenario_order1) world_started
           eq_refl scenario_order1_ok scenario_order1_ok'
           scenario_poll1_completed).
Defined.

(** C7, as stated, fails: the names [pod-delete] and [pod_delete] have
    the same sanitized form, hence one series, which shows the verdict of
    the entry visited last. The first poll visits [pod_delete] last and
    exposes 2; the second poll, over the same data, visits [pod-delete]
    last and exposes 1. *)
Lemma C7_collision_breaks_idempotence :
  let r := {| expTotal := 2; passTotal := 0; failTotal := 1;
              expMap := <["pod-delete" := 1%float]>
                          (<["pod_delete" := 2%float]> ∅) |} in
  let order1 := [("pod-delete", 1%float); ("pod_delete", 2%float)] in
  let order2 := [("pod_delete", 2%float); ("pod-delete", 1%float)] in
  let w1 := world_of (poll scenario_args (FetchOk r order1) world_started) in
  let w2 := world_of (poll scenario_args (FetchOk r order2) w1) in
  range_order (expMap r) order1 ∧
  range_order (expMap r) order2 ∧
  completed (poll scenario_args (FetchOk r order1) world_started) = true ∧
  completed (poll scenario_args (FetchOk r order2) w1) = true ∧
  exposed w1 "c_exp_pod_delete" (labelValues scenario_args) = Some 2%float ∧
  exposed w2 "c_exp_pod_delete" (labelValues scenario_args) = Some 1%float ∧
  PrimFloat.eqb 2 1 = false.
Proof.
  cbv zeta. split_and!.
  - unfold range_order. vm_compute. apply Permutation_swap.
  - unfold range_order. vm_compute. reflexivity.
  - vm_compute. reflexivity.
  - vm_compute. reflexivity.
  - vm_compute. reflexivity.
  - vm_compute. reflexivity.
  - vm_compute. reflexivity.
Qed.

(** C7, amended: when a poll has completed, a second poll with the same
    source data completes and leaves the whole state, and so the exposed
    value of every series, as the first poll left it, provided no two
    names of the verdict map have the same sanitized form or the entries
    are visited in the same order both times. *)
Theorem C7_same_data_same_exposition
        (a : exporterArgs) (r : chaosMetrics)
        (order1 order2 : list (string * float64)) (w : world) :
  range_order (expMap r) order1 →
  range_order (expMap r) order2 →
  (∀ k1 k2, is_Some (expMap r !! k1) → is_Some (expMap r !! k2) →
            sanitize k1 = sanitize k2 → k1 = k2) ∨ order2 = order1 →
  completed (poll a (FetchOk r order1) w) = true →
  let w1 := world_of (poll a (FetchOk r order1) w) in
  let w2 := world_of (poll a (FetchOk r order2) w1) in
  completed (poll a (FetchOk r order2) w1) = true ∧
  w2 = w1 ∧
  ∀ id lvs, exposed w2 id lvs = exposed w1 id lvs.
Proof.
  intros Hp1 Hp2 Hsame [t1 Hr1]%completed_Done. cbv zeta.
  generalize dependent (world_of (poll a (FetchOk r order1) w)).
  intros w1 Hr1. cbn [poll] in *.
  assert (Hp : order2 ≡ₚ order1).
  { unfold range_order in *. by rewrite Hp1, Hp2. }
  destruct (reconcile_again a r r order1 order2 w t1 w1 Hp Hr1)
    as (t2 & w2 & Hr2 & Hreg).
  rewrite Hr2. cbn [world_of completed snd]. split; [done|].
  assert (Heq : w2 = w1); [|by rewrite Heq].
  assert (Hdr : DefaultRegisterer w2 = DefaultRegisterer w1).
  { apply map_eq. intros id.
    rewrite (reconcile_Done_registry _ _ _ _ _ _ _ Hr2 id).
    destruct (last_entry order2 id) as [e|] eqn:Hl; [|done].
    rewrite (reconcile_Done_registry _ _ _ _ _ _ _ Hr1 id).
    destruct Hsame as [Hinj| ->]; [|by rewrite Hl].
    apply last_entry_Some in Hl as [Hin <-]. rewrite Hp in Hin.
    rewrite (last_entry_NoDup order1 e); [done| |done].
    by apply (range_order_NoDup_ids (expMap r)). }
  destruct order2 as [|e2 rest2].
  - by apply reconcile_nil_Done in Hr2.
  - assert (Hne : order1 ≠ []).
    { intros ->. by apply Permutation_nil_r in Hp. }
    destruct (reconcile_Done_fixed _ _ _ _ _ _ _ Hr1 Hne) as (He1 & Hp1' & Hf1).
    destruct (reconcile_Done_fixed _ _ _ _ _ _ _ Hr2 ltac:(done))
      as (He2 & Hp2' & Hf2).
    rewrite He1, insert_insert_eq, <- He1 in He2.
    rewrite Hp1', insert_insert_eq, <- Hp1' in Hp2'.
    rewrite Hf1, insert_insert_eq, <- Hf1 in Hf2.
    destruct w1, w2. cbn in *. by subst.
Qed.

(** C7 at the first poll of the example, whose two names have different
    sanitized forms, repeated with its entries visited in the opposite
    order. *)
Lemma C7_same_data_same_exposition_witness :
  let w1 := world_of (poll scenario_args (FetchOk scenario_poll1 scenario_order1)
                           world_started) in
  let w2 := world_of (poll scenario_args
                           (FetchOk scenario_poll1 (reverse scenario_order1)) w1) in
  range_order (expMap scenario_poll1) scenario_order1 ∧
  range_order (expMap scenario_poll1) (reverse scenario_order1) ∧
  (∀ k1 k2, is_Some (expMap scenario_poll1 !! k1) →
            is_Some (expMap scenario_poll1 !! k2) →
            sanitize k1 = sanitize k2 → k1 = k2) ∧
  completed (poll scenario_args (FetchOk scenario_poll1 scenario_order1)
                  world_started) = true ∧
  completed (poll scenario_args
                  (FetchOk scenario_poll1 (reverse scenario_order1)) w1) = true ∧
  w2 = w1 ∧
  ∀ id lvs, exposed w2 id lvs = exposed w1 id lvs.
Proof.
  cbv zeta.
  split; [exact scenario_order1_ok|].
  split; [exact scenario_order1_ok'|].
  split; [exact scenario_poll1_no_collision|].
  split; [exact scenario_poll1_completed|].
  exact (C7_same_data_same_exposition
           scenario_args scenario_poll1
           scenario_order1 (reverse scenario_order1) world_started
           scenario_order1_ok scenario_order1_ok'
           (or_introl scenario_poll1_no_collision) scenario_poll1_completed).
Defined.

(** C8: the list of recorded names is empty at program start and still
    empty when [main] is done, and every reconciliation step and every
    sequence of polls only extends it: the list before is a prefix of the
    list after, so no entry is ever removed. *)
Theorem C8_registry_grows :
  registeredResultMetrics world0 = [] ∧
  (∀ i, registeredResultMetrics (world_of (main i world0)) = []) ∧
  (∀ a r order w,
      registeredResultMetrics w `prefix_of`
      registeredResultMetrics (world_of (reconcile a r order w))) ∧
  (∀ a ticks w,
      registeredResultMetrics w `prefix_of`
      registeredResultMetrics (world_of (exporter a ticks w))).
Proof.
  split_and!; [done| | |].
  - intros i. rewrite main_eq. destruct (loadConfig i); [done|].
    by destruct (String.eqb (Getenv i "CHAOSENGINE") "" ||
                 String.eqb (Getenv i "APP_UUID") "").
  - intros a r order w.
    apply (reconcile_related
             (λ w w', registeredResultMetrics w `prefix_of` registeredResultMetrics w')).
    + done.
    + intros w1 w2 w3 H1 H2. by etrans.
    + apply exporter_entry_prefix.
  - intros a ticks w.
    apply (exporter_related
             (λ w w', registeredResultMetrics w `prefix_of` registeredResultMetrics w')).
    + done.
    + intros w1 w2 w3 H1 H2. by etrans.
    + apply exporter_entry_prefix.
Qed.

(** C9: whatever [main] read at startup and whatever the metrics source
    answered, the list of recorded names holds no name twice; the loop
    body keeps that property, because it appends a name only when
    [contains] has returned false for it, and otherwise leaves the list
    as it is. *)
Theorem C9_registered_names_distinct :
  (∀ i ticks, NoDup (registeredResultMetrics (world_of (process i ticks world0)))) ∧
  (∀ a r index verdict w,
      NoDup (registeredResultMetrics w) →
      NoDup (registeredResultMetrics
               (world_of (exporter_entry a r index verdict w)))) ∧
  (∀ a r index verdict w,
      registeredResultMetrics (world_of (exporter_entry a r index verdict w)) =
        registeredResultMetrics w ∨
      (contains (registeredResultMetrics w) (sanitize index) = false ∧
       registeredResultMetrics (world_of (exporter_entry a r index verdict w)) =
         (registeredResultMetrics w ++ [sanitize index])%list)).
Proof.
  split_and!.
  - intros i ticks.
    destruct (process_world i ticks) as [->| ->]; [apply NoDup_nil_2|].
    apply (exporter_related
             (λ w w', NoDup (registeredResultMetrics w) →
                      NoDup (registeredResultMetrics w'))); auto.
    + intros. by apply exporter_entry_NoDup.
    + apply NoDup_nil_2.
  - intros. by apply exporter_entry_NoDup.
  - intros. apply exporter_entry_registered.
Qed.

(** C9 at the second poll of the example: the recorded names are
    distinct before the loop body runs for the new name [network-delay],
    and after it. *)
Lemma C9_registered_names_distinct_witness :
  NoDup (registeredResultMetrics scenario_world1) ∧
  NoDup (registeredResultMetrics
           (world_of (exporter_entry scenario_args scenario_poll2
                                     "network-delay" 1%float scenario_world1))).
Proof.
  assert (Hnd : NoDup (registeredResultMetrics scenario_world1)).
  { apply scenario_world1_consistent. }
  split; [exact Hnd|].
  exact (proj1 (proj2 C9_registered_names_distinct)
               scenario_args scenario_poll2 "network-delay" 1%float
               scenario_world1 Hnd).
Defined.

(** C10, as stated, fails: with both variables unset and a cluster
    configuration that cannot be loaded, [main] ends in the panic on the
    configuration error, which comes before the check of the variables;
    the fatal log of that check is not written. *)
Lemma C10_config_error_comes_first :
  let i := {| environ := ∅; loadConfig := Some "unable to load in-cluster configuration";
              getKubernetesVersion := ""; getOpenebsVersion := "" |} in
  Getenv i "CHAOSENGINE" = "" ∧ Getenv i "APP_UUID" = "" ∧
  main i world0 =
    ([], Halt (Panic "unable to load in-cluster configuration") world0).
Proof. cbv zeta. split_and!; reflexivity. Qed.

(** C10, amended: if CHAOSENGINE or APP_UUID is empty at startup, the
    process ends before it registers the fixed metrics, starts the poll
    loop or serves the endpoint: no registry call is made and the state
    is the initial one. When the cluster configuration was loaded it ends
    in the fatal log of the check; when loading it failed it has already
    ended in the panic on that error. *)
Theorem C10_missing_env_stops_startup (i : startup) :
  Getenv i "CHAOSENGINE" = "" ∨ Getenv i "APP_UUID" = "" →
  main i world0 =
    ([], Halt match loadConfig i with
              | Some err => Panic err
              | None =>
                  LogFatal "ERROR: please specify correct APP_UUID & CHAOSENGINE ENVs"
              end world0) ∧
  (∀ ticks, process i ticks world0 = ([], Halt match loadConfig i with
              | Some err => Panic err
              | None =>
                  LogFatal "ERROR: please specify correct APP_UUID & CHAOSENGINE ENVs"
              end world0)).
Proof.
  intros He.
  assert (Hm : main i world0 =
    ([], Halt match loadConfig i with
              | Some err => Panic err
              | None =>
                  LogFatal "ERROR: please specify correct APP_UUID & CHAOSENGINE ENVs"
              end world0)).
  { rewrite main_eq. destruct (loadConfig i); [done|].
    destruct He as [-> | ->]; [done|]. by rewrite orb_true_r. }
  split; [done|]. intros ticks. by rewrite process_eq, Hm.
Qed.

(** C10 at a startup with APP_UUID set, CHAOSENGINE unset and a loaded
    cluster configuration. *)
Lemma C10_missing_env_stops_startup_witness :
  let i := {| environ := <["APP_UUID" := "1c3b5e0a"]> ∅; loadConfig := None;
              getKubernetesVersion := "v1.15.0"; getOpenebsVersion := "1.0.0" |} in
  (Getenv i "CHAOSENGINE" = "" ∨ Getenv i "APP_UUID" = "") ∧
  main i world0 =
    ([], Halt (LogFatal "ERROR: please specify correct APP_UUID & CHAOSENGINE ENVs")
              world0).
Proof.
  cbv zeta. split; [left; reflexivity|].
  exact (proj1 (C10_missing_env_stops_startup
                  {| environ := <["APP_UUID" := "1c3b5e0a"]> ∅; loadConfig := None;
                     getKubernetesVersion := "v1.15.0";
                     getOpenebsVersion := "1.0.0" |}
                  (or_introl eq_refl))).
Defined.

(** * Further properties of the code *)

(** ** Names the registry accepts *)

Lemma append_cons (c : ascii) (s1 s2 : string) :
  String c s1 ++ s2 = String c (s1 ++ s2).
Proof. reflexivity. Qed.

Lemma bytes_app (s1 s2 : string) : bytes (s1 ++ s2) = (bytes s1 ++ bytes s2)%list.
Proof.
  induction s1 as [|c s1 IH]; [done|]. rewrite append_cons. cbn. by f_equal.
Qed.

Lemma map_bytes_app (f : ascii → ascii) (s1 s2 : string) :
  map_bytes f (s1 ++ s2) = map_bytes f s1 ++ map_bytes f s2.
Proof.
  induction s1 as [|c s1 IH]; [done|]. rewrite append_cons. cbn [map_bytes].
  rewrite append_cons. by f_equal.
Qed.

Lemma dash_to_underscore_idemp (c : ascii) :
  dash_to_underscore (dash_to_underscore c) = dash_to_underscore c.
Proof.
  unfold dash_to_underscore. destruct (Ascii.eqb_spec c "-") as [->|Hne]; [done|].
  by apply Ascii.eqb_neq in Hne as ->.
Qed.

Lemma all_name_chars_sanitized (k : string) :
  all_name_chars (map_bytes dash_to_underscore k) = forallb accepted_byte (bytes k).
Proof.
  induction k as [|c k IH]; cbn; [done|]. rewrite IH. f_equal.
  unfold accepted_byte, dash_to_underscore.
  destruct (Ascii.eqb_spec c "-") as [->|Hne]; [done|]. by rewrite orb_false_r.
Qed.

Lemma map_bytes_empty (f : ascii → ascii) (k : string) :
  String.eqb (map_bytes f k) "" = String.eqb k "".
Proof. by destruct k. Qed.

Lemma expName_valid (n : string) :
  IsValidMetricName (expName n) = negb (String.eqb n "") && all_name_chars n.
Proof.
  rewrite expName_eq. destruct (String.eqb n ""); reflexivity.
Qed.

Lemma not_elem_of_bytes_map (s : string) :
  "-"%char ∉ bytes s → map_bytes dash_to_underscore s = s.
Proof.
  induction s as [|c s IH]; [done|]. cbn. rewrite not_elem_of_cons.
  intros [Hc Hs]. rewrite IH by done. unfold dash_to_underscore.
  destruct (Ascii.eqb_spec c "-") as [->|_]; [done|done].
Qed.

Lemma map_bytes_fixed_no_dash (s : string) :
  map_bytes dash_to_underscore s = s → "-"%char ∉ bytes s.
Proof.
  induction s as [|c s IH]; cbn; [by intros _ ?%elem_of_nil|].
  intros [= Hc Hs]. rewrite not_elem_of_cons. split; [|by apply IH].
  unfold dash_to_underscore in Hc.
  destruct (Ascii.eqb_spec c "-") as [->|Hne]; [discriminate|congruence].
Qed.

Lemma map_bytes_dash_inj (a b : string) :
  "_"%char ∉ bytes a → "_"%char ∉ bytes b →
  map_bytes dash_to_underscore a = map_bytes dash_to_underscore b → a = b.
Proof.
  revert b. induction a as [|c a IH]; intros [|d b]; cbn; try done.
  rewrite !not_elem_of_cons. intros [Hc Ha] [Hd Hb] [= Hcd Hab].
  f_equal; [|by apply IH]. unfold dash_to_underscore in Hcd.
  destruct (Ascii.eqb_spec c "-") as [->|Hc'], (Ascii.eqb_spec d "-") as [->|Hd'];
    congruence.
Qed.

(** ** Completed and aborted reconciliation steps *)

Lemma last_entry_None l id :
  (∀ e, e ∈ l → entry_id e ≠ id) → last_entry l id = None.
Proof.
  intros Hl. destruct (last_entry l id) as [e|] eqn:He; [|done].
  apply last_entry_Some in He as [Hin Hid]. by destruct (Hl e Hin).
Qed.

Lemma last_entry_app l1 l2 id :
  last_entry (l1 ++ l2) id =
  match last_entry l2 id with
  | Some e => Some e
  | None => last_entry l1 id
  end.
Proof.
  induction l1 as [|e l1 IH]; cbn.
  - by destruct (last_entry l2 id).
  - rewrite IH. by destruct (last_entry l2 id).
Qed.

Lemma last_entry_last_writer pre e post :
  (∀ e', e' ∈ post → entry_id e' ≠ entry_id e) →
  last_entry (pre ++ e :: post) (entry_id e) = Some e.
Proof.
  intros Hpost. rewrite last_entry_app. cbn.
  rewrite (last_entry_None post) by done. by rewrite decide_True.
Qed.

Lemma last_entry_Permutation l1 l2 id :
  NoDup (entry_id <$> l1) → l1 ≡ₚ l2 → last_entry l1 id = last_entry l2 id.
Proof.
  intros Hnd Hp.
  assert (Hnd2 : NoDup (entry_id <$> l2)) by by rewrite <- Hp.
  destruct (last_entry l1 id) as [e|] eqn:H1.
  - apply last_entry_Some in H1 as [Hin <-]. rewrite Hp in Hin.
    by rewrite (last_entry_NoDup l2 e).
  - destruct (last_entry l2 id) as [e|] eqn:H2; [|done].
    apply last_entry_Some in H2 as [Hin <-]. rewrite <- Hp in Hin.
    by rewrite (last_entry_NoDup l1 e) in H1.
Qed.

Lemma reconcile_Done_names a r order w t u w' :
  reconcile a r order w = (t, Done u w') →
  ∀ n, n ∈ registeredResultMetrics w' →
       n ∈ registeredResultMetrics w ∨ ∃ e, e ∈ order ∧ n = sanitize e.1.
Proof.
  revert w t. induction order as [|[index verdict] rest IH]; intros w t Hr n Hn.
  - apply reconcile_nil_Done in Hr as ->. by left.
  - apply reconcile_cons_Done in Hr as [Hv [t2 Hr]].
    destruct (IH _ _ Hr n Hn) as [Hmid|(e & He & ->)].
    + cbn [entry_effect registeredResultMetrics] in Hmid.
      destruct (contains (registeredResultMetrics w) (sanitize index));
        [by left|].
      apply elem_of_app in Hmid as [?| ->%list_elem_of_singleton]; [by left|].
      right. exists (index, verdict). split; [apply list_elem_of_here|done].
    + right. exists e. split; [by apply list_elem_of_further|done].
Qed.

Lemma reconcile_Halt_invalid a r order w t f w' :
  consistent w →
  reconcile a r order w = (t, Halt f w') →
  ∃ e, e ∈ order ∧ IsValidMetricName (entry_id e) = false ∧
       f = RegisterPanic (InvalidDesc (entry_id e)).
Proof.
  revert w t. induction order as [|[index verdict] rest IH]; intros w t Hc.
  - discriminate.
  - rewrite reconcile_cons.
    destruct (exporter_entry_consistent a r index verdict w Hc)
      as [[Hv ->]|[Hv ->]].
    + pose proof (IH (entry_effect a r index verdict w)) as IH'.
      destruct (reconcile a r rest (entry_effect a r index verdict w))
        as [t2 o]. intros [= _ ->].
      destruct (IH' t2) as (e & He & Hinv & Hf);
        [by apply entry_effect_consistent|done|].
      exists e. split; [by apply list_elem_of_further|done].
    + intros [= _ <- _]. exists (index, verdict).
      split; [apply list_elem_of_here|done].
Qed.

Lemma exporter_Halt_cases a ticks w t f w' :
  consistent w →
  exporter a ticks w = (t, Halt f w') →
  (∃ err, FetchErr err ∈ ticks ∧ f = LogFatal ("Unable to get metrics: " ++ err)) ∨
  (∃ r order e, FetchOk r order ∈ ticks ∧ e ∈ order ∧
                IsValidMetricName (entry_id e) = false ∧
                f = RegisterPanic (InvalidDesc (entry_id e))).
Proof.
  revert w t. induction ticks as [|tk rest IH]; intros w t Hc.
  - discriminate.
  - rewrite exporter_cons. destruct tk as [err|r order].
    + cbn. intros [= _ <- _]. left. exists err.
      split; [apply list_elem_of_here|done].
    + cbn [poll].
      pose proof (reconcile_keeps_consistent a r order w Hc) as Hc1.
      pose proof (reconcile_Halt_invalid a r order w) as Hh.
      destruct (reconcile a r order w) as [t1 [u w1|f1 w1]].
      * cbn in Hc1. pose proof (IH w1) as IH'.
        destruct (exporter a rest w1) as [t2 o]. intros [= _ ->].
        destruct (IH' t2 Hc1 eq_refl) as [(err & Hin & Hf)|(r' & o' & e & Hin & He)].
        -- left. exists err. split; [by apply list_elem_of_further|done].
        -- right. exists r', o', e. split; [by apply list_elem_of_further|done].
      * intros [= _ <- _].
        destruct (Hh t1 f1 w1 Hc eq_refl) as (e & He & Hinv & Hf).
        right. exists r, order, e. split; [apply list_elem_of_here|done].
Qed.

Lemma reconcile_completed_iff a r order w :
  consistent w →
  completed (reconcile a r order w) = true ↔
  ∀ e, e ∈ order → IsValidMetricName (entry_id e) = true.
Proof.
  intros Hc. split.
  - intros [t Hr]%completed_Done. by eapply reconcile_Done_valid.
  - intros Hv. destruct (reconcile_valid_completes a r order w Hc Hv)
      as (t & w' & ->). done.
Qed.

Lemma reconcile_Done_names_iff a r order w t u w' :
  reconcile a r order w = (t, Done u w') →
  ∀ n, n ∈ registeredResultMetrics w' ↔
       n ∈ registeredResultMetrics w ∨ ∃ e, e ∈ order ∧ n = sanitize e.1.
Proof.
  intros Hr n. split; [by eapply reconcile_Done_names|].
  intros [Hn|(e & He & ->)].
  - pose proof (reconcile_prefix a r order w) as [k Hk].
    rewrite Hr in Hk. cbn in Hk. rewrite Hk. apply elem_of_app. by left.
  - by eapply reconcile_Done_registered.
Qed.

Lemma expGauge_children a n v :
  metrics (expGauge a n v) = {[labelValues a := v]}.
Proof. unfold expGauge. cbn. by rewrite insert_empty. Qed.

Lemma exposed_owned (w : world) (id : string) (g : GaugeVec) (lvs : list string) :
  DefaultRegisterer w !! id = Some (Owned g) →
  exposed w id lvs = metrics g !! lvs.
Proof. intros Hg. unfold exposed, Gather. by rewrite lookup_fmap, Hg. Qed.

(** ** The properties *)

(** X1: [contains] decides membership in the list: it returns true
    exactly for the strings of the list; over a concatenation it is the
    disjunction of the two checks, so a string is found right after it
    was appended. *)
Theorem X1_contains_decides_membership (l k : list string) (e : string) :
  (contains l e = true ↔ e ∈ l) ∧
  (contains (l ++ k)%list e = (contains l e || contains k e)) ∧
  (contains (l ++ [e])%list e = true).
Proof.
  assert (Happ : ∀ k', contains (l ++ k')%list e = contains l e || contains k' e).
  { intros k'. induction l as [|i l IH]; cbn; [done|].
    by destruct (String.eqb i e). }
  split_and!; [apply contains_elem_of|apply Happ|].
  rewrite Happ. cbn. rewrite String.eqb_refl. apply orb_true_r.
Qed.

(** X2: sanitizing twice is sanitizing once; the sanitized form of a
    concatenation is the concatenation of the sanitized forms; and a name
    is its own sanitized form exactly when it holds no hyphen. *)
Theorem X2_sanitize_laws (s1 s2 : string) :
  sanitize (sanitize s1) = sanitize s1 ∧
  sanitize (s1 ++ s2) = sanitize s1 ++ sanitize s2 ∧
  (sanitize s1 = s1 ↔ "-"%char ∉ bytes s1).
Proof.
  rewrite !sanitize_bytes. split_and!.
  - induction s1 as [|c s IH]; cbn; [done|].
    by rewrite dash_to_underscore_idemp, IH.
  - apply map_bytes_app.
  - split; [apply map_bytes_fixed_no_dash|apply not_elem_of_bytes_map].
Qed.

(** X3: two different names without an underscore have different
    sanitized forms, so they never share a series. *)
Theorem X3_sanitize_separates_names (a b : string) :
  "_"%char ∉ bytes a → "_"%char ∉ bytes b → a ≠ b →
  sanitize a ≠ sanitize b.
Proof.
  intros Ha Hb Hne Heq. apply Hne. rewrite !sanitize_bytes in Heq.
  by apply map_bytes_dash_inj.
Qed.

(** X3 at the names [pod-failure] and [pod.failure]. *)
Lemma X3_sanitize_separates_names_witness :
  ("_"%char ∉ bytes "pod-failure") ∧ ("_"%char ∉ bytes "pod.failure") ∧
  ("pod-failure" ≠ "pod.failure") ∧
  (sanitize "pod-failure" ≠ sanitize "pod.failure").
Proof.
  assert (Ha : "_"%char ∉ bytes "pod-failure").
  { intros H%list_elem_of_In. cbn in H. intuition discriminate. }
  assert (Hb : "_"%char ∉ bytes "pod.failure").
  { intros H%list_elem_of_In. cbn in H. intuition discriminate. }
  assert (Hne : "pod-failure" ≠ "pod.failure") by discriminate.
  split; [exact Ha|]. split; [exact Hb|]. split; [exact Hne|].
  exact (X3_sanitize_separates_names "pod-failure" "pod.failure" Ha Hb Hne).
Defined.

(** X4: the series of an experiment name can be registered exactly when
    the name is not empty and each of its bytes is a letter, a digit, an
    underscore, a colon or a hyphen. *)
Theorem X4_accepted_experiment_names (index : string) :
  IsValidMetricName (expName (sanitize index)) =
  negb (String.eqb index "") && forallb accepted_byte (bytes index).
Proof.
  rewrite expName_valid, sanitize_bytes, map_bytes_empty.
  by rewrite all_name_chars_sanitized.
Qed.

(** X5: from a state in which the recorded names and the registry agree,
    and with label values that are valid UTF-8, a poll completes exactly
    when the sanitized form of every name it visits is a metric name. *)
Theorem X5_poll_completes_iff_names_valid
        (a : exporterArgs) (r : chaosMetrics)
        (order : list (string * float64)) (w : world) :
  consistent w →
  labels_accepted a →
  completed (poll a (FetchOk r order) w) = true ↔
  ∀ index verdict, (index, verdict) ∈ order →
                   IsValidMetricName (expName (sanitize index)) = true.
Proof.
  intros Hc _. cbn [poll]. rewrite (reconcile_completed_iff a r order w Hc).
  split.
  - intros H index verdict Hin. apply (H _ Hin).
  - intros H [index verdict] Hin. by apply (H index verdict).
Qed.

(** X5 at the first poll of the example. *)
Lemma X5_poll_completes_iff_names_valid_witness :
  consistent world_started ∧
  labels_accepted scenario_args ∧
  (completed (poll scenario_args (FetchOk scenario_poll1 scenario_order1)
                   world_started) = true ↔
   ∀ index verdict, (index, verdict) ∈ scenario_order1 →
                    IsValidMetricName (expName (sanitize index)) = true).
Proof.
  split; [exact world_started_consistent|].
  split; [exact scenario_labels_accepted|].
  exact (X5_poll_completes_iff_names_valid
           scenario_args scenario_poll1 scenario_order1 world_started
           world_started_consistent scenario_labels_accepted).
Defined.

(** X6: with label values that are valid UTF-8, and from a state in
    which the recorded names and the registry agree (the state [main]
    starts the loop in is one), the poll loop ends the process in two
    ways only: by the fatal log of a failed fetch, or by the panic of
    [MustRegister] on an experiment name whose sanitized form is not a
    metric name. *)
Theorem X6_ways_the_poll_loop_ends
        (a : exporterArgs) (ticks : list tick) (w : world)
        (f : failure) (w' : world) :
  consistent w →
  labels_accepted a →
  (exporter a ticks w).2 = Halt f w' →
  (∃ err, FetchErr err ∈ ticks ∧
          f = LogFatal ("Unable to get metrics: " ++ err)) ∨
  (∃ r order index verdict,
      FetchOk r order ∈ ticks ∧ (index, verdict) ∈ order ∧
      IsValidMetricName (expName (sanitize index)) = false ∧
      f = RegisterPanic (InvalidDesc (expName (sanitize index)))).
Proof.
  intros Hc _.
  pose proof (exporter_Halt_cases a ticks w) as Hx.
  destruct (exporter a ticks w) as [t2 o]. cbn [snd]. intros ->.
  destruct (Hx t2 f w' Hc eq_refl)
    as [Hfetch|(r & order & [index verdict] & Hin & He' & Hv & Hf)].
  - by left.
  - right. by exists r, order, index, verdict.
Qed.

(** X6 at the example: a first poll, then a failed fetch. *)
Lemma X6_ways_the_poll_loop_ends_witness :
  let f := LogFatal "Unable to get metrics: connection refused" in
  consistent world_started ∧
  labels_accepted scenario_args ∧
  (exporter scenario_args scenario_outage world_started).2 =
    Halt f scenario_world1 ∧
  ((∃ err, FetchErr err ∈ scenario_outage ∧
           f = LogFatal ("Unable to get metrics: " ++ err)) ∨
   (∃ r order index verdict,
       FetchOk r order ∈ scenario_outage ∧ (index, verdict) ∈ order ∧
       IsValidMetricName (expName (sanitize index)) = false ∧
       f = RegisterPanic (InvalidDesc (expName (sanitize index))))).
Proof.
  cbv zeta.
  assert (Hrun : (exporter scenario_args scenario_outage world_started).2 =
                 Halt (LogFatal "Unable to get metrics: connection refused")
                      scenario_world1).
  { vm_compute. reflexivity. }
  split; [exact world_started_consistent|].
  split; [exact scenario_labels_accepted|].
  split; [exact Hrun|].
  exact (X6_ways_the_poll_loop_ends
           scenario_args scenario_outage world_started _ _
           world_started_consistent scenario_labels_accepted Hrun).
Defined.

(** X7: after a completed poll over at least one entry, with the three
    fixed series registered as [main] registers them, the fixed series
    expose the total, passed and failed counts of that poll for the
    current label values. *)
Theorem X7_fixed_series_after_nonempty_poll
        (a : exporterArgs) (r : chaosMetrics)
        (order : list (string * float64)) (w : world) :
  order ≠ [] →
  (∀ f, DefaultRegisterer w !! fixedName f = Some (Global f)) →
  completed (poll a (FetchOk r order) w) = true →
  let w' := world_of (poll a (FetchOk r order) w) in
  exposed w' "c_engine_experiment_count" (labelValues a) = Some (expTotal r) ∧
  exposed w' "c_engine_passed_experiments" (labelValues a) = Some (passTotal r) ∧
  exposed w' "c_engine_failed_experiments" (labelValues a) = Some (failTotal r).
Proof.
  intros Hne Hfix Hdone. exact (poll_sets_fixed_series a r order w Hne Hfix Hdone).
Qed.

Lemma world_started_fixed (f : fixedGauge) :
  DefaultRegisterer world_started !! fixedName f = Some (Global f).
Proof. by destruct f. Qed.

(** X7 at the first poll of the example. *)
Lemma X7_fixed_series_after_nonempty_poll_witness :
  let w' := world_of (poll scenario_args (FetchOk scenario_poll1 scenario_order1)
                           world_started) in
  scenario_order1 ≠ [] ∧
  (∀ f, DefaultRegisterer world_started !! fixedName f = Some (Global f)) ∧
  completed (poll scenario_args (FetchOk scenario_poll1 scenario_order1)
                  world_started) = true ∧
  exposed w' "c_engine_experiment_count" (labelValues scenario_args) =
    Some (expTotal scenario_poll1) ∧
  exposed w' "c_engine_passed_experiments" (labelValues scenario_args) =
    Some (passTotal scenario_poll1) ∧
  exposed w' "c_engine_failed_experiments" (labelValues scenario_args) =
    Some (failTotal scenario_poll1).
Proof.
  cbv zeta.
  assert (Hne : scenario_order1 ≠ []) by discriminate.
  split; [exact Hne|]. split; [exact world_started_fixed|].
  split; [exact scenario_poll1_completed|].
  exact (X7_fixed_series_after_nonempty_poll
           scenario_args scenario_poll1 scenario_order1 world_started
           Hne world_started_fixed scenario_poll1_completed).
Defined.

(** X8: after a completed poll, the series of an entry that no later
    entry of the visiting order shares holds exactly one child: the
    current label values with the verdict of that entry. Of two names
    with one sanitized form, the one visited last wins. *)
Theorem X8_last_visited_entry_wins
        (a : exporterArgs) (r : chaosMetrics)
        (pre post : list (string * float64))
        (index : string) (verdict : float64) (w : world) :
  completed (poll a (FetchOk r (pre ++ (index, verdict) :: post)%list) w) = true →
  (∀ index' verdict', (index', verdict') ∈ post →
                      sanitize index' ≠ sanitize index) →
  let w' := world_of (poll a (FetchOk r (pre ++ (index, verdict) :: post)%list) w) in
  exposed w' (expName (sanitize index)) (labelValues a) = Some verdict ∧
  (∀ lvs, lvs ≠ labelValues a →
          exposed w' (expName (sanitize index)) lvs = None).
Proof.
  intros [t Hr]%completed_Done Hpost. cbv zeta.
  generalize dependent
    (world_of (poll a (FetchOk r (pre ++ (index, verdict) :: post)%list) w)).
  intros w' Hr. cbn [poll] in Hr.
  pose proof (reconcile_Done_registry _ _ _ _ _ _ _ Hr
                (entry_id (index, verdict))) as Hreg.
  rewrite last_entry_last_writer in Hreg.
  - unfold entry_id in Hreg. cbn [fst snd] in Hreg.
    split; [|intros lvs Hl]; rewrite (exposed_owned _ _ _ _ Hreg), expGauge_children.
    + apply lookup_singleton_eq.
    + by apply lookup_singleton_ne.
  - intros [index' verdict'] Hin He. apply expName_inj in He.
    by apply (Hpost index' verdict').
Qed.

(** X8 at a poll that visits [pod-delete] and then [pod_delete]. *)
Lemma X8_last_visited_entry_wins_witness :
  let order := ([("pod-delete", 1%float)] ++ ("pod_delete", 2%float) :: [])%list in
  let w' := world_of (poll scenario_args (FetchOk scenario_collision order)
                           world_started) in
  completed (poll scenario_args (FetchOk scenario_collision order)
                  world_started) = true ∧
  exposed w' (expName (sanitize "pod_delete")) (labelValues scenario_args) =
    Some 2%float ∧
  (∀ lvs, lvs ≠ labelValues scenario_args →
          exposed w' (expName (sanitize "pod_delete")) lvs = None).
Proof.
  cbv zeta.
  assert (Hdone : completed (poll scenario_args
                    (FetchOk scenario_collision
                       ([("pod-delete", 1%float)] ++ ("pod_delete", 2%float) :: [])%list)
                    world_started) = true).
  { vm_compute. reflexivity. }
  split; [exact Hdone|].
  exact (X8_last_visited_entry_wins
           scenario_args scenario_collision [("pod-delete", 1%float)] []
           "pod_delete" 2%float world_started Hdone
           (λ index' verdict' Hin, match elem_of_nil _ with
                                   | conj H _ => False_ind _ (H Hin)
                                   end)).
Defined.

(** X9: after a completed poll over a verdict map in which no two names
    have the same sanitized form, every name of the map has its series
    exposed with its own verdict, in whatever order the entries were
    visited. *)
Theorem X9_each_verdict_is_exposed
        (a : exporterArgs) (r : chaosMetrics)
        (order : list (string * float64)) (w : world)
        (index : string) (verdict : float64) :
  range_order (expMap r) order →
  (∀ k1 k2, is_Some (expMap r !! k1) → is_Some (expMap r !! k2) →
            sanitize k1 = sanitize k2 → k1 = k2) →
  expMap r !! index = Some verdict →
  completed (poll a (FetchOk r order) w) = true →
  let w' := world_of (poll a (FetchOk r order) w) in
  exposed w' (expName (sanitize index)) (labelValues a) = Some verdict.
Proof.
  intros Hp Hinj Hk [t Hr]%completed_Done. cbv zeta.
  generalize dependent (world_of (poll a (FetchOk r order) w)).
  intros w' Hr. cbn [poll] in Hr.
  apply (range_order_elem_of _ order index verdict Hp) in Hk.
  pose proof (reconcile_Done_registry _ _ _ _ _ _ _ Hr
                (entry_id (index, verdict))) as Hreg.
  rewrite (last_entry_NoDup order (index, verdict)) in Hreg;
    [|by apply (range_order_NoDup_ids (expMap r))|done].
  unfold entry_id in Hreg. cbn [fst snd] in Hreg.
  rewrite (exposed_owned _ _ _ _ Hreg), expGauge_children.
  apply lookup_singleton_eq.
Qed.

Lemma scenario_poll1_pod_failure :
  expMap scenario_poll1 !! "pod-failure" = Some 3%float.
Proof. vm_compute. reflexivity. Qed.

(** X9 at the first poll of the example, for [pod-failure]. *)
Lemma X9_each_verdict_is_exposed_witness :
  let w' := world_of (poll scenario_args (FetchOk scenario_poll1 scenario_order1)
                           world_started) in
  range_order (expMap scenario_poll1) scenario_order1 ∧
  (∀ k1 k2, is_Some (expMap scenario_poll1 !! k1) →
            is_Some (expMap scenario_poll1 !! k2) →
            sanitize k1 = sanitize k2 → k1 = k2) ∧
  expMap scenario_poll1 !! "pod-failure" = Some 3%float ∧
  completed (poll scenario_args (FetchOk scenario_poll1 scenario_order1)
                  world_started) = true ∧
  exposed w' (expName (sanitize "pod-failure")) (labelValues scenario_args) =
    Some 3%float.
Proof.
  cbv zeta.
  split; [exact scenario_order1_ok|].
  split; [exact scenario_poll1_no_collision|].
  split; [exact scenario_poll1_pod_failure|].
  split; [exact scenario_poll1_completed|].
  exact (X9_each_verdict_is_exposed
           scenario_args scenario_poll1 scenario_order1 world_started
           "pod-failure" 3%float scenario_order1_ok scenario_poll1_no_collision
           scenario_poll1_pod_failure scenario_poll1_completed).
Defined.

(** X10: a completed poll leaves every experiment series that none of
    its entries writes as it was: the registered collector is the same
    and every exposed value is unchanged. Series of experiments that are
    no longer reported are neither removed nor reset. *)
Theorem X10_other_series_untouched
        (a : exporterArgs) (r : chaosMetrics)
        (order : list (string * float64)) (w : world) (id : string) :
  completed (poll a (FetchOk r order) w) = true →
  (∀ index verdict, (index, verdict) ∈ order → expName (sanitize index) ≠ id) →
  (∀ f, DefaultRegisterer w !! id ≠ Some (Global f)) →
  let w' := world_of (poll a (FetchOk r order) w) in
  DefaultRegisterer w' !! id = DefaultRegisterer w !! id ∧
  ∀ lvs, exposed w' id lvs = exposed w id lvs.
Proof.
  intros [t Hr]%completed_Done Hother Hexp. cbv zeta.
  generalize dependent (world_of (poll a (FetchOk r order) w)).
  intros w' Hr. cbn [poll] in Hr.
  pose proof (reconcile_Done_registry _ _ _ _ _ _ _ Hr id) as Hreg.
  rewrite last_entry_None in Hreg.
  - split; [done|]. intros lvs. unfold exposed, Gather.
    rewrite !lookup_fmap, Hreg.
    destruct (DefaultRegisterer w !! id) as [[f|g]|] eqn:Hid; [|done|done].
    by destruct (Hexp f).
  - intros [index verdict] Hin. by apply (Hother index verdict).
Qed.

(** X10 at a poll that reports [network-delay] only, after the first
    poll of the example, for the series of [pod-failure]. *)
Lemma X10_other_series_untouched_witness :
  let order := [("network-delay", 1%float)] in
  let w' := world_of (poll scenario_args (FetchOk scenario_poll3 order)
                           scenario_world1) in
  completed (poll scenario_args (FetchOk scenario_poll3 order)
                  scenario_world1) = true ∧
  (∀ index verdict, (index, verdict) ∈ order →
                    expName (sanitize index) ≠ "c_exp_pod_failure") ∧
  (∀ f, DefaultRegisterer scenario_world1 !! "c_exp_pod_failure" ≠
        Some (Global f)) ∧
  DefaultRegisterer w' !! "c_exp_pod_failure" =
    DefaultRegisterer scenario_world1 !! "c_exp_pod_failure" ∧
  ∀ lvs, exposed w' "c_exp_pod_failure" lvs =
         exposed scenario_world1 "c_exp_pod_failure" lvs.
Proof.
  cbv zeta.
  assert (Hdone : completed (poll scenario_args
                               (FetchOk scenario_poll3 [("network-delay", 1%float)])
                               scenario_world1) = true).
  { vm_compute. reflexivity. }
  assert (Hother : ∀ index verdict,
             (index, verdict) ∈ [("network-delay", 1%float)] →
             expName (sanitize index) ≠ "c_exp_pod_failure").
  { intros index verdict [= -> _]%list_elem_of_singleton H.
    vm_compute in H. discriminate H. }
  assert (Hexp : ∀ f, DefaultRegisterer scenario_world1 !! "c_exp_pod_failure" ≠
                      Some (Global f)).
  { intros f H. vm_compute in H. discriminate H. }
  split; [exact Hdone|]. split; [exact Hother|]. split; [exact Hexp|].
  exact (X10_other_series_untouched
           scenario_args scenario_poll3 [("network-delay", 1%float)]
           scenario_world1 "c_exp_pod_failure" Hdone Hother Hexp).
Defined.

(** X11: after a completed poll the recorded names are the names
    recorded before together with the sanitized forms of the names the
    poll visited, and the series identities in the registry are those
    held before together with the identities of the visited entries:
    nothing else is added and nothing is dropped. *)
Theorem X11_poll_adds_exactly_its_names
        (a : exporterArgs) (r : chaosMetrics)
        (order : list (string * float64)) (w : world) :
  completed (poll a (FetchOk r order) w) = true →
  let w' := world_of (poll a (FetchOk r order) w) in
  (∀ n, n ∈ registeredResultMetrics w' ↔
        n ∈ registeredResultMetrics w ∨
        ∃ index verdict, (index, verdict) ∈ order ∧ n = sanitize index) ∧
  dom (DefaultRegisterer w') =
    dom (DefaultRegisterer w) ∪
    list_to_set ((λ e, expName (sanitize e.1)) <$> order).
Proof.
  intros [t Hr]%completed_Done. cbv zeta.
  generalize dependent (world_of (poll a (FetchOk r order) w)).
  intros w' Hr. cbn [poll] in Hr. split.
  - intros n. rewrite (reconcile_Done_names_iff _ _ _ _ _ _ _ Hr n).
    split; (intros [?|H]; [by left|right]).
    + destruct H as ([index verdict] & Hin & ->). by exists index, verdict.
    + destruct H as (index & verdict & Hin & ->). by exists (index, verdict).
  - apply set_eq. intros id.
    rewrite elem_of_union, !elem_of_dom, elem_of_list_to_set, list_elem_of_fmap.
    rewrite (reconcile_Done_registry _ _ _ _ _ _ _ Hr id).
    destruct (last_entry order id) as [e|] eqn:Hl.
    + apply last_entry_Some in Hl as [Hin Hid]. split; [|by eexists].
      intros _. right. exists e. by rewrite <- Hid.
    + split; [by left|]. intros [?|(e & -> & Hin)]; [done|].
      destruct (last_entry_is_Some order e Hin) as [e' He'].
      unfold entry_id in He'. congruence.
Qed.

(** X11 at the second poll of the example. *)
Lemma X11_poll_adds_exactly_its_names_witness :
  let w' := world_of (poll scenario_args (FetchOk scenario_poll2 scenario_order2)
                           scenario_world1) in
  completed (poll scenario_args (FetchOk scenario_poll2 scenario_order2)
                  scenario_world1) = true ∧
  (∀ n, n ∈ registeredResultMetrics w' ↔
        n ∈ registeredResultMetrics scenario_world1 ∨
        ∃ index verdict, (index, verdict) ∈ scenario_order2 ∧ n = sanitize index) ∧
  dom (DefaultRegisterer w') =
    dom (DefaultRegisterer scenario_world1) ∪
    list_to_set ((λ e, expName (sanitize e.1)) <$> scenario_order2).
Proof.
  cbv zeta.
  assert (Hdone : completed (poll scenario_args
                               (FetchOk scenario_poll2 scenario_order2)
                               scenario_world1) = true).
  { vm_compute. reflexivity. }
  split; [exact Hdone|].
  exact (X11_poll_adds_exactly_its_names
           scenario_args scenario_poll2 scenario_order2 scenario_world1 Hdone).
Defined.

(** X12: with label values that are valid UTF-8, whenever the poll loop
    stands between two passes of its body (after any number of polls and
    any number of entries of the current poll, or where a failed fetch or
    an unregistrable name stopped it), the recorded names and the
    exporter's series in the registry agree: the names are pairwise
    distinct, each has a series with a valid name in the registry, and
    the registry holds no other series of the exporter besides the three
    fixed ones. Nothing is said of the instant inside the loop body
    between Unregister and MustRegister, when the series of a recorded
    name is out of the registry. *)
Theorem X12_loop_boundaries_keep_names_and_registry_consistent
        (a : exporterArgs) (ticks : list tick) (r : chaosMetrics)
        (visited : list (string * float64)) :
  labels_accepted a →
  let w := world_of (exporter a ticks world_started) in
  consistent w ∧ consistent (world_of (reconcile a r visited w)).
Proof.
  intros _. cbv zeta.
  assert (Hc : consistent (world_of (exporter a ticks world_started))).
  { apply exporter_keeps_consistent, world_started_consistent. }
  split; [exact Hc|]. by apply reconcile_keeps_consistent.
Qed.

(** X12 at the example: after the first poll, and after the first entry
    of the second. *)
Lemma X12_loop_boundaries_keep_names_and_registry_consistent_witness :
  let w := world_of (exporter scenario_args
                              [FetchOk scenario_poll1 scenario_order1]
                              world_started) in
  labels_accepted scenario_args ∧
  consistent w ∧
  consistent (world_of (reconcile scenario_args scenario_poll2
                                  [("network-delay", 1%float)] w)).
Proof.
  cbv zeta. split; [exact scenario_labels_accepted|].
  exact (X12_loop_boundaries_keep_names_and_registry_consistent
           scenario_args [FetchOk scenario_poll1 scenario_order1]
           scenario_poll2 [("network-delay", 1%float)]
           scenario_labels_accepted).
Defined.

Lemma children_agree (w1 w2 : world) (c : collector) :
  experimentsTotal w1 = experimentsTotal w2 →
  passedExperiments w1 = passedExperiments w2 →
  failedExperiments w1 = failedExperiments w2 →
  children w1 c = children w2 c.
Proof. intros He Hp Hf. destruct c as [[]|g]; cbn; congruence. Qed.

(** X13: the order in which [range] visits a verdict map without
    colliding names does not change the outcome of a poll. From a state
    in which the recorded names and the registry agree, two visiting
    orders of the same map either both complete or both stop; when they
    complete, they expose the same values for every series and record
    the same names (the recorded names may be listed in another order). *)
Theorem X13_visiting_order_does_not_matter
        (a : exporterArgs) (r : chaosMetrics)
        (order1 order2 : list (string * float64)) (w : world) :
  consistent w →
  range_order (expMap r) order1 →
  range_order (expMap r) order2 →
  (∀ k1 k2, is_Some (expMap r !! k1) → is_Some (expMap r !! k2) →
            sanitize k1 = sanitize k2 → k1 = k2) →
  let run1 := poll a (FetchOk r order1) w in
  let run2 := poll a (FetchOk r order2) w in
  completed run1 = completed run2 ∧
  (completed run1 = true →
   Gather (world_of run1) = Gather (world_of run2) ∧
   ∀ n, n ∈ registeredResultMetrics (world_of run1) ↔
        n ∈ registeredResultMetrics (world_of run2)).
Proof.
  intros Hc Hp1 Hp2 Hinj. cbv zeta. cbn [poll].
  assert (Hp : order1 ≡ₚ order2).
  { unfold range_order in *. by rewrite Hp1, Hp2. }
  assert (Hiff : completed (reconcile a r order1 w) = true ↔
                 completed (reconcile a r order2 w) = true).
  { rewrite !reconcile_completed_iff by done.
    split; intros H e He; apply H; [by rewrite Hp|by rewrite <- Hp]. }
  split.
  { destruct (completed (reconcile a r order1 w)),
             (completed (reconcile a r order2 w)); try done.
    - symmetry. by apply Hiff.
    - by apply Hiff. }
  intros H1. pose proof (proj1 Hiff H1) as H2.
  apply completed_Done in H1 as [t1 Hr1]. apply completed_Done in H2 as [t2 Hr2].
  generalize dependent (world_of (reconcile a r order1 w)).
  generalize dependent (world_of (reconcile a r order2 w)).
  intros w2 Hr2 w1 Hr1.
  assert (Hdr : DefaultRegisterer w1 = DefaultRegisterer w2).
  { apply map_eq. intros id.
    rewrite (reconcile_Done_registry _ _ _ _ _ _ _ Hr1 id).
    rewrite (reconcile_Done_registry _ _ _ _ _ _ _ Hr2 id).
    rewrite (last_entry_Permutation order1 order2 id); [done| |done].
    by apply (range_order_NoDup_ids (expMap r)). }
  assert (Hfix : experimentsTotal w1 = experimentsTotal w2 ∧
                 passedExperiments w1 = passedExperiments w2 ∧
                 failedExperiments w1 = failedExperiments w2).
  { destruct order1 as [|e1 rest1].
    - apply Permutation_nil_l in Hp. subst order2.
      apply reconcile_nil_Done in Hr1 as ->.
      by apply reconcile_nil_Done in Hr2 as ->.
    - assert (Hne : order2 ≠ []).
      { intros ->. by apply Permutation_nil_r in Hp. }
      destruct (reconcile_Done_fixed _ _ _ _ _ _ _ Hr1 ltac:(done))
        as (-> & -> & ->).
      by destruct (reconcile_Done_fixed _ _ _ _ _ _ _ Hr2 Hne) as (-> & -> & ->). }
  destruct Hfix as (He & Hpa & Hf). split.
  - unfold Gather. rewrite Hdr. apply map_fmap_ext. intros id c _.
    by apply children_agree.
  - intros n. rewrite (reconcile_Done_names_iff _ _ _ _ _ _ _ Hr1 n).
    rewrite (reconcile_Done_names_iff _ _ _ _ _ _ _ Hr2 n).
    split; (intros [?|(e & He' & ->)]; [by left|right; exists e]);
      [by rewrite <- Hp|by rewrite Hp].
Qed.

(** X13 at the first poll of the example, visited in both orders. *)
Lemma X13_visiting_order_does_not_matter_witness :
  let run1 := poll scenario_args (FetchOk scenario_poll1 scenario_order1)
                   world_started in
  let run2 := poll scenario_args (FetchOk scenario_poll1 (reverse scenario_order1))
                   world_started in
  consistent world_started ∧
  range_order (expMap scenario_poll1) scenario_order1 ∧
  range_order (expMap scenario_poll1) (reverse scenario_order1) ∧
  (∀ k1 k2, is_Some (expMap scenario_poll1 !! k1) →
            is_Some (expMap scenario_poll1 !! k2) →
            sanitize k1 = sanitize k2 → k1 = k2) ∧
  completed run1 = completed run2 ∧
  (completed run1 = true →
   Gather (world_of run1) = Gather (world_of run2) ∧
   ∀ n, n ∈ registeredResultMetrics (world_of run1) ↔
        n ∈ registeredResultMetrics (world_of run2)).
Proof.
  cbv zeta.
  split; [exact world_started_consistent|].
  split; [exact scenario_order1_ok|].
  split; [exact scenario_order1_ok'|].
  split; [exact scenario_poll1_no_collision|].
  exact (X13_visiting_order_does_not_matter
           scenario_args scenario_poll1 scenario_order1 (reverse scenario_order1)
           world_started world_started_consistent scenario_order1_ok
           scenario_order1_ok' scenario_poll1_no_collision).
Defined.

(** X14: [main] gets as far as starting the poll loop exactly when the
    cluster configuration was loaded and both CHAOSENGINE and APP_UUID
    are non-empty. It has then registered the three fixed series, in the
    order count, passed, failed, and nothing else; it hands the loop the
    label values (APP_UUID, CHAOSENGINE, Kubernetes version, OpenEBS
    version); and no series exposes a value yet. *)
Theorem X14_startup_succeeds_iff (i : startup) :
  (completed (main i world0) = true ↔
   loadConfig i = None ∧
   Getenv i "CHAOSENGINE" ≠ "" ∧ Getenv i "APP_UUID" ≠ "") ∧
  (completed (main i world0) = true →
   ∃ a, main i world0 =
          ([CallRegister "c_engine_experiment_count";
            CallRegister "c_engine_passed_experiments";
            CallRegister "c_engine_failed_experiments"],
           Done a world_started) ∧
        labelValues a =
          [Getenv i "APP_UUID"; Getenv i "CHAOSENGINE";
           getKubernetesVersion i; getOpenebsVersion i]) ∧
  dom (DefaultRegisterer world_started) =
    {["c_engine_experiment_count"; "c_engine_passed_experiments";
      "c_engine_failed_experiments"]} ∧
  (∀ id lvs, exposed world_started id lvs = None).
Proof.
  rewrite main_eq. split_and!.
  - destruct (loadConfig i) as [err|].
    { split; [discriminate|]. by intros [[=] _]. }
    destruct (String.eqb_spec (Getenv i "CHAOSENGINE") "") as [He|He].
    { split; [discriminate|]. by intros (_ & H & _). }
    destruct (String.eqb_spec (Getenv i "APP_UUID") "") as [Hu|Hu].
    { split; [discriminate|]. by intros (_ & _ & H). }
    split; [done|]. by intros _.
  - destruct (loadConfig i) as [err|]; [discriminate|].
    destruct (String.eqb (Getenv i "CHAOSENGINE") "" ||
              String.eqb (Getenv i "APP_UUID") ""); [discriminate|].
    intros _. by exists (args_of i).
  - apply set_eq. intros id. rewrite elem_of_dom.
    unfold world_started, with_registry. cbn [DefaultRegisterer].
    rewrite !lookup_insert_is_Some', lookup_empty, is_Some_alt.
    rewrite !elem_of_union, !elem_of_singleton.
    change (fixedName FailedExperiments) with "c_engine_failed_experiments".
    change (fixedName PassedExperiments) with "c_engine_passed_experiments".
    change (fixedName ExperimentsTotal) with "c_engine_experiment_count".
    split; [intros [?|[?|[?|[]]]]|intros [[?|?]|?]]; auto.
  - intros id lvs. unfold exposed, Gather. rewrite lookup_fmap.
    destruct (DefaultRegisterer world_started !! id) as [c|] eqn:Hc; [|done].
    cbn. unfold world_started, with_registry in Hc. cbn [DefaultRegisterer] in Hc.
    apply lookup_insert_Some in Hc as [[_ <-]|[_ Hc]]; [done|].
    apply lookup_insert_Some in Hc as [[_ <-]|[_ Hc]]; [done|].
    apply lookup_insert_Some in Hc as [[_ <-]|[_ Hc]]; [done|].
    by rewrite lookup_empty in Hc.
Qed.

(** X14 at the startup of the example. *)
Lemma X14_startup_succeeds_iff_witness :
  completed (main scenario_startup world0) = true ∧
  ∃ a, main scenario_startup world0 =
         ([CallRegister "c_engine_experiment_count";
           CallRegister "c_engine_passed_experiments";
           CallRegister "c_engine_failed_experiments"],
          Done a world_started) ∧
       labelValues a =
         [Getenv scenario_startup "APP_UUID"; Getenv scenario_startup "CHAOSENGINE";
          getKubernetesVersion scenario_startup;
          getOpenebsVersion scenario_startup].
Proof.
  assert (Hdone : completed (main scenario_startup world0) = true).
  { vm_compute. reflexivity. }
  split; [exact Hdone|].
  exact (proj1 (proj2 (X14_startup_succeeds_iff scenario_startup)) Hdone).
Defined.

(** X15: the fallback of [getNamespaceEnv] and [getOpenebsEnv] is used
    only for a variable that is not set. For a variable that is set,
    also to the empty string, both return what [os.Getenv] returns; the
    two functions agree on every input, and with the empty string as
    fallback they are [os.Getenv]. *)
Theorem X15_env_fallback_only_when_unset (i : startup) (key fallback : string) :
  getOpenebsEnv i key fallback = getNamespaceEnv i key fallback ∧
  getNamespaceEnv i key "" = Getenv i key ∧
  (is_Some (LookupEnv i key) → getNamespaceEnv i key fallback = Getenv i key) ∧
  (LookupEnv i key = None →
   getNamespaceEnv i key fallback = fallback ∧ Getenv i key = "") ∧
  (Getenv i key ≠ "" → getNamespaceEnv i key fallback = Getenv i key).
Proof.
  unfold getOpenebsEnv, getNamespaceEnv, Getenv, LookupEnv.
  destruct (environ i !! key) as [v|]; cbn; split_and!; try done.
Qed.

(** X15 at a startup with APP_NAMESPACE set to the empty string and
    OPENEBS_NAMESPACE unset. *)
Lemma X15_env_fallback_only_when_unset_witness :
  let i := {| environ := <["APP_NAMESPACE" := ""]> ∅; loadConfig := None;
              getKubernetesVersion := ""; getOpenebsVersion := "" |} in
  is_Some (LookupEnv i "APP_NAMESPACE") ∧
  appNamespace i = "" ∧
  LookupEnv i "OPENEBS_NAMESPACE" = None ∧
  openebsNamespace i = "openebs".
Proof.
  cbv zeta.
  assert (Hset : is_Some (LookupEnv
                   {| environ := <["APP_NAMESPACE" := ""]> ∅; loadConfig := None;
                      getKubernetesVersion := ""; getOpenebsVersion := "" |}
                   "APP_NAMESPACE")) by (by eexists).
  split; [exact Hset|].
  split.
  { exact (proj1 (proj2 (proj2 (X15_env_fallback_only_when_unset _ _ "default")))
                 Hset). }
  split; [reflexivity|]. reflexivity.
Defined.

(** ** Unregister is always followed by Register *)

Lemma well_paired_app_bounded (n : nat) (t2 : list call) :
  well_paired t2 = true →
  ∀ t1 : list call,
    (length t1 ≤ n)%nat → well_paired t1 = true →
    well_paired (t1 ++ t2) = true.
Proof.
  intros H2. induction n as [|n IH]; intros t1 Hlen H1.
  - destruct t1; [done|cbn in Hlen; lia].
  - destruct t1 as [|c t1]; [done|].
    destruct c as [id|id|id lvs v].
    + cbn in *. apply IH; [lia|done].
    + destruct t1 as [|[id'|id'|id' lvs' v'] t1]; cbn in *; try done.
      apply andb_true_iff in H1 as [-> H1]. cbn. apply IH; [lia|done].
    + cbn in *. apply IH; [lia|done].
Qed.

Lemma well_paired_app (t1 t2 : list call) :
  well_paired t1 = true → well_paired t2 = true →
  well_paired (t1 ++ t2) = true.
Proof. intros H1 H2. by apply (well_paired_app_bounded (length t1)). Qed.

Lemma exporter_entry_well_paired a r index verdict w :
  well_paired (exporter_entry a r index verdict w).1 = true.
Proof.
  rewrite exporter_entry_eq. cbv zeta.
  destruct (contains (registeredResultMetrics w) (sanitize index));
    destruct (IsValidMetricName (expName (sanitize index)));
    try destruct (DefaultRegisterer w !! expName (sanitize index));
    cbn; by rewrite ?String.eqb_refl.
Qed.

Lemma reconcile_well_paired a r order w :
  well_paired (reconcile a r order w).1 = true.
Proof.
  revert w. induction order as [|[index verdict] rest IH]; intros w; [done|].
  rewrite reconcile_cons.
  pose proof (exporter_entry_well_paired a r index verdict w) as He.
  destruct (exporter_entry a r index verdict w) as [t1 [u w1|f w1]]; [|done].
  specialize (IH w1). destruct (reconcile a r rest w1) as [t2 o].
  by apply well_paired_app.
Qed.

Lemma exporter_well_paired a ticks w :
  well_paired (exporter a ticks w).1 = true.
Proof.
  revert w. induction ticks as [|tk rest IH]; intros w; [done|].
  rewrite exporter_cons.
  assert (Hp : well_paired (poll a tk w).1 = true).
  { destruct tk; [done|apply reconcile_well_paired]. }
  destruct (poll a tk w) as [t1 [u w1|f w1]]; [|done].
  specialize (IH w1). destruct (exporter a rest w1) as [t2 o].
  by apply well_paired_app.
Qed.

(** X16: in the registry calls of the whole process, every Unregister is
    directly followed by the Register of the same identity: the loop
    never takes a series out of the registry without offering its
    replacement at once, and [main] never unregisters anything. *)
Theorem X16_unregister_is_followed_by_register
        (i : startup) (ticks : list tick) :
  well_paired (calls_of (process i ticks world0)) = true ∧
  (∀ id, CallUnregister id ∉ calls_of (main i world0)).
Proof.
  unfold calls_of. rewrite process_eq, main_eq.
  destruct (loadConfig i) as [err|].
  { split; [done|]. by intros id ?%elem_of_nil. }
  destruct (String.eqb (Getenv i "CHAOSENGINE") "" ||
            String.eqb (Getenv i "APP_UUID") "").
  { split; [done|]. by intros id ?%elem_of_nil. }
  split.
  - pose proof (exporter_well_paired (args_of i) ticks world_started) as Hx.
    destruct (exporter (args_of i) ticks world_started) as [t2 o].
    by apply (well_paired_app [_; _; _]).
  - intros id Hin. cbn [fst] in Hin.
    repeat (apply elem_of_cons in Hin as [[=]|Hin]).
    by apply elem_of_nil in Hin.
Qed.
